(** * MeetingAssistantAI: capture / mixing lifecycle and transcript sink

    A shallow embedding of the [App] component (handlers [cleanupTracks],
    [handleStartMeeting], [handleStopMeeting], [handleGenerateResponse],
    the transcription callback, the dismiss callback) and of
    [GeminiLiveService] ([connect], [startAudioStream], [stopAudioStream],
    [disconnect], [requestSuggestion], [handleMessage]).
    The unmount cleanup, what [App] renders from its state, and the
    [SuggestionCard], [Transcript] and [AudioVisualizer] components are
    embedded after the handlers.

    Modelling conventions.
    - Media tracks are identified by a number; the browser's per-track
      [readyState] is the set [ended] of the world.
    - React state lives in [AppState].  A handler is a closure created by
      one render: whatever it *reads* from React state ([stream] in
      [handleStopMeeting], [connectionState] in [handleGenerateResponse]) is
      the value of the render that created it, so every handler takes that
      snapshot as an argument.  Setters and refs act on the current world.
    - JavaScript exceptions and [try]/[catch] are an error monad over the
      world; state changes made before a throw persist.
    - What the platform answers during one start attempt (capture results,
      the initial state of the mixing context, failures of the audio graph
      and of the SDK's connect) is an explicit [StartEnv].  A run of
      [handleStartMeeting] is one step: nothing else is interleaved at its
      [await]s.
    - The SDK's session callbacks ([onopen], [onmessage], [onclose],
      [onerror]) are events of their own; a [then] callback registered on
      the session promise is taken to run.
    - [trace] records, in chronological order, the calls the statements
      below are about: [track.stop()], the service's state-change callback,
      the error-message setter and the text payloads handed to the session.
      [console.error] and the audio frames are not recorded.
    - [contexts] holds the audio contexts created by [handleStartMeeting]
      (for mixing) and by the service (for its input stream).  The context
      that [AudioVisualizer] creates and closes in its own effect is not
      part of the world; only one frame of its [draw] is embedded. *)

From Stdlib Require Import String ZArith QArith Lqa.
From stdpp Require Import base option list gmap sets strings.

Local Open Scope string_scope.
Local Open Scope list_scope.

(** ** types.ts *)

Inductive ConnectionState := DISCONNECTED | CONNECTING | CONNECTED | ERROR.

#[global] Instance ConnectionState_eq_dec : EqDecision ConnectionState.
Proof. solve_decision. Defined.

(** [TranscriptionItem]; the field [id] is spelled [item_id]. *)
Record TranscriptionItem := {
  item_id : string;
  timestamp : Z;
  text : string;
  isUser : bool;
  isComplete : bool
}.

(** ** Platform objects *)

Inductive TrackKind := Audio | Video.

#[global] Instance TrackKind_eq_dec : EqDecision TrackKind.
Proof. solve_decision. Defined.

Record MediaStreamTrack := { track_id : nat; kind : TrackKind }.

(** A [MediaStream] is the list that [getTracks()] returns. *)
Definition MediaStream := list MediaStreamTrack.

Definition getTracks (s : MediaStream) : list MediaStreamTrack := s.

Definition getAudioTracks (s : MediaStream) : list MediaStreamTrack :=
  filter (λ t, kind t = Audio) s.

Definition getVideoTracks (s : MediaStream) : list MediaStreamTrack :=
  filter (λ t, kind t = Video) s.

Inductive AudioContextState := suspended | running | closed.

#[global] Instance AudioContextState_eq_dec : EqDecision AudioContextState.
Proof. solve_decision. Defined.

(** A thrown value: [err.name] and [err.message]. *)
Record Exn := { name : string; message : string }.

(** [new Error(msg)] *)
Definition Error (msg : string) : Exn := {| name := "Error"; message := msg |}.

(** [String.prototype.includes] *)
Fixpoint includes (needle hay : string) : bool :=
  String.prefix needle hay ||
  match hay with
  | EmptyString => false
  | String _ rest => includes needle rest
  end.

(** ** The world *)

Inductive Effect :=
| EStop (t : nat)                       (* track.stop() on track t *)
| ENotify (s : ConnectionState)         (* the service's onStateChange(s) *)
| ESetErrorMsg (m : option string)      (* setErrorMsg(m) *)
| ESend (payload : string).             (* session.sendRealtimeInput text *)

(** [useState] cells of [App]. *)
Record AppState := {
  connectionState : ConnectionState;
  stream : option MediaStream;
  transcripts : list TranscriptionItem;
  currentSuggestion : option TranscriptionItem;
  isGenerating : bool;
  errorMsg : option string
}.

(** Private fields of [GeminiLiveService].  [sessionPromise] is identified
    with the stream that the session's callbacks closed over;
    [inputAudioContext] is an index into [contexts]; [scriptProcessor] holds
    the node's buffer size. *)
Record Service := {
  sessionPromise : option MediaStream;
  inputAudioContext : option nat;
  mediaStreamSource : option MediaStream;
  scriptProcessor : option nat
}.

Record World := {
  app : AppState;
  svc : Service;
  activeTracksRef : list MediaStreamTrack;
  ended : gset nat;                           (* tracks whose readyState is ended *)
  contexts : list AudioContextState;          (* the AudioContexts that the start
                                                 handler and the service create;
                                                 not the visualizer's own *)
  onended : gmap nat AppState;                (* video track ↦ the render whose
                                                 handleStopMeeting closure is
                                                 installed as its onended *)
  trace : list Effect
}.

Definition with_app (f : AppState → AppState) (w : World) : World :=
  {| app := f (app w); svc := svc w; activeTracksRef := activeTracksRef w;
     ended := ended w; contexts := contexts w; onended := onended w;
     trace := trace w |}.

Definition with_svc (f : Service → Service) (w : World) : World :=
  {| app := app w; svc := f (svc w); activeTracksRef := activeTracksRef w;
     ended := ended w; contexts := contexts w; onended := onended w;
     trace := trace w |}.

Definition with_activeTracks (f : list MediaStreamTrack → list MediaStreamTrack)
    (w : World) : World :=
  {| app := app w; svc := svc w; activeTracksRef := f (activeTracksRef w);
     ended := ended w; contexts := contexts w; onended := onended w;
     trace := trace w |}.

Definition with_ended (f : gset nat → gset nat) (w : World) : World :=
  {| app := app w; svc := svc w; activeTracksRef := activeTracksRef w;
     ended := f (ended w); contexts := contexts w; onended := onended w;
     trace := trace w |}.

Definition with_contexts (f : list AudioContextState → list AudioContextState)
    (w : World) : World :=
  {| app := app w; svc := svc w; activeTracksRef := activeTracksRef w;
     ended := ended w; contexts := f (contexts w); onended := onended w;
     trace := trace w |}.

Definition with_onended (f : gmap nat AppState → gmap nat AppState)
    (w : World) : World :=
  {| app := app w; svc := svc w; activeTracksRef := activeTracksRef w;
     ended := ended w; contexts := contexts w; onended := f (onended w);
     trace := trace w |}.

Definition emit (e : Effect) (w : World) : World :=
  {| app := app w; svc := svc w; activeTracksRef := activeTracksRef w;
     ended := ended w; contexts := contexts w; onended := onended w;
     trace := trace w ++ [e] |}.

(** The initial world: [useState] initial values, a service constructed on
    mount, nothing captured yet. *)
Definition initialApp : AppState :=
  {| connectionState := DISCONNECTED; stream := None; transcripts := [];
     currentSuggestion := None; isGenerating := false; errorMsg := None |}.

Definition initialService : Service :=
  {| sessionPromise := None; inputAudioContext := None;
     mediaStreamSource := None; scriptProcessor := None |}.

Definition initialWorld : World :=
  {| app := initialApp; svc := initialService; activeTracksRef := [];
     ended := ∅; contexts := []; onended := ∅; trace := [] |}.

(** ** Exceptions over the world *)

Definition M (A : Type) : Type := World → (Exn + A) * World.

#[global] Instance M_ret : MRet M := λ A a w, (inr a, w).

#[global] Instance M_bind : MBind M := λ A B k m w,
  match m w with
  | (inl e, w') => (inl e, w')
  | (inr a, w') => k a w'
  end.

Definition throw {A} (e : Exn) : M A := λ w, (inl e, w).

(** [try { body } catch (err) { handler }] *)
Definition try_catch {A} (body : M A) (handler : Exn → M A) : M A := λ w,
  match body w with
  | (inl e, w') => handler e w'
  | r => r
  end.

(** A statement that cannot throw. *)
Definition modify (f : World → World) : M unit := λ w, (inr tt, f w).

(** [await p] for a promise whose outcome the platform has decided. *)
Definition await {A} (outcome : Exn + A) : M A := λ w, (outcome, w).

(** [xs.forEach(f)] *)
Fixpoint forEach {A} (f : A → M unit) (xs : list A) : M unit :=
  match xs with
  | [] => mret tt
  | x :: rest => f x ;; forEach f rest
  end.

Definition exec {A} (m : M A) (w : World) : World := (m w).2.

(** Read something off the current world. *)
Definition gets {A} (f : World → A) : M A := λ w, (inr (f w), w).

(** ** React setters *)

Definition setConnectionState (s : ConnectionState) : M unit :=
  modify (with_app (λ a,
    {| connectionState := s; stream := stream a; transcripts := transcripts a;
       currentSuggestion := currentSuggestion a; isGenerating := isGenerating a;
       errorMsg := errorMsg a |})).

Definition setStream (s : option MediaStream) : M unit :=
  modify (with_app (λ a,
    {| connectionState := connectionState a; stream := s;
       transcripts := transcripts a; currentSuggestion := currentSuggestion a;
       isGenerating := isGenerating a; errorMsg := errorMsg a |})).

(** [setTranscripts(prev => f(prev))] *)
Definition setTranscripts (f : list TranscriptionItem → list TranscriptionItem)
    : M unit :=
  modify (with_app (λ a,
    {| connectionState := connectionState a; stream := stream a;
       transcripts := f (transcripts a);
       currentSuggestion := currentSuggestion a;
       isGenerating := isGenerating a; errorMsg := errorMsg a |})).

Definition setCurrentSuggestion (s : option TranscriptionItem) : M unit :=
  modify (with_app (λ a,
    {| connectionState := connectionState a; stream := stream a;
       transcripts := transcripts a; currentSuggestion := s;
       isGenerating := isGenerating a; errorMsg := errorMsg a |})).

Definition setIsGenerating (b : bool) : M unit :=
  modify (with_app (λ a,
    {| connectionState := connectionState a; stream := stream a;
       transcripts := transcripts a; currentSuggestion := currentSuggestion a;
       isGenerating := b; errorMsg := errorMsg a |})).

Definition setErrorMsg (m : option string) : M unit :=
  modify (emit (ESetErrorMsg m)) ;;
  modify (with_app (λ a,
    {| connectionState := connectionState a; stream := stream a;
       transcripts := transcripts a; currentSuggestion := currentSuggestion a;
       isGenerating := isGenerating a; errorMsg := m |})).

(** ** Platform primitives *)

(** [track.stop()]: the track's readyState becomes ended; never throws. *)
Definition track_stop (t : MediaStreamTrack) : M unit :=
  modify (emit (EStop (track_id t))) ;;
  modify (with_ended (λ s, {[track_id t]} ∪ s)).

(** [new AudioContext()]: a context in state [st0]; its handle is its index. *)
Definition new_AudioContext (st0 : AudioContextState) : M nat :=
  c ← gets (λ w, length (contexts w));
  modify (with_contexts (λ cs, cs ++ [st0])) ;;
  mret c.

Definition set_context_state (c : nat) (st : AudioContextState) : M unit :=
  modify (with_contexts (λ cs, <[c := st]> cs)).

(** ** The transcript callbacks that [App] hands to the service *)

Definition onTranscriptionUpdate (item : TranscriptionItem) : M unit :=
  setTranscripts (λ prev, prev ++ [item]) ;;
  if negb (isUser item) then
    setIsGenerating false ;;
    setCurrentSuggestion (Some item)
  else mret tt.

(** [(state) => setConnectionState(state)] *)
Definition onStateChange (s : ConnectionState) : M unit :=
  modify (emit (ENotify s)) ;;
  setConnectionState s.

(** ** GeminiLiveService *)

Definition set_sessionPromise (p : option MediaStream) : M unit :=
  modify (with_svc (λ s,
    {| sessionPromise := p; inputAudioContext := inputAudioContext s;
       mediaStreamSource := mediaStreamSource s;
       scriptProcessor := scriptProcessor s |})).

Definition set_inputAudioContext (c : option nat) : M unit :=
  modify (with_svc (λ s,
    {| sessionPromise := sessionPromise s; inputAudioContext := c;
       mediaStreamSource := mediaStreamSource s;
       scriptProcessor := scriptProcessor s |})).

Definition set_mediaStreamSource (m : option MediaStream) : M unit :=
  modify (with_svc (λ s,
    {| sessionPromise := sessionPromise s;
       inputAudioContext := inputAudioContext s;
       mediaStreamSource := m; scriptProcessor := scriptProcessor s |})).

Definition set_scriptProcessor (p : option nat) : M unit :=
  modify (with_svc (λ s,
    {| sessionPromise := sessionPromise s;
       inputAudioContext := inputAudioContext s;
       mediaStreamSource := mediaStreamSource s; scriptProcessor := p |})).

(** [connect(stream)]; [liveConnect] is the synchronous outcome of
    [this.ai.live.connect(...)]. *)
Definition connect (liveConnect : Exn + unit) (mixed : MediaStream) : M unit :=
  onStateChange CONNECTING ;;
  try_catch
    (await liveConnect ;;
     set_sessionPromise (Some mixed))
    (λ error, onStateChange ERROR).

(** [startAudioStream(stream)]; [st0] is the state in which the platform
    creates the 16 kHz context. *)
Definition startAudioStream (st0 : AudioContextState) (mixed : MediaStream)
    : M unit :=
  c ← new_AudioContext st0;
  set_inputAudioContext (Some c) ;;
  set_mediaStreamSource (Some mixed) ;;
  set_scriptProcessor (Some 4096).

Definition stopAudioStream : M unit :=
  src ← gets (λ w, mediaStreamSource (svc w));
  (if src is Some _ then set_mediaStreamSource None else mret tt) ;;
  proc ← gets (λ w, scriptProcessor (svc w));
  (if proc is Some _ then set_scriptProcessor None else mret tt) ;;
  ctx ← gets (λ w, inputAudioContext (svc w));
  (if ctx is Some c then
     set_context_state c closed ;;
     set_inputAudioContext None
   else mret tt).

Definition disconnect : M unit :=
  p ← gets (λ w, sessionPromise (svc w));
  (if p is Some _ then
     stopAudioStream ;;
     set_sessionPromise None
   else mret tt) ;;
  onStateChange DISCONNECTED.

Definition requestSuggestion : M unit :=
  p ← gets (λ w, sessionPromise (svc w));
  if p is Some _ then
    modify (emit (ESend "Based on the conversation, suggest a response now."))
  else mret tt.

(** The callbacks registered with the SDK session. *)
Definition onopen (st0 : AudioContextState) (mixed : MediaStream) : M unit :=
  onStateChange CONNECTED ;;
  startAudioStream st0 mixed.

Definition onclose : M unit :=
  onStateChange DISCONNECTED ;;
  stopAudioStream.

Definition onerror : M unit :=
  onStateChange ERROR ;;
  stopAudioStream.

(** [LiveServerMessage], as far as [handleMessage] looks into it. *)
Record Transcription := { transcription_text : option string }.

Record ServerContent := {
  inputTranscription : option Transcription;
  outputTranscription : option Transcription;
  turnComplete : option bool
}.

Record LiveServerMessage := { serverContent : option ServerContent }.

(** What [Date.now()] and [Math.random()] give for one item. *)
Record Clock := { fresh_id : string; now : Z }.

(** JavaScript truthiness of a text field: present and not the empty string. *)
Definition truthy_text (t : option string) : option string :=
  match t with
  | Some s => if decide (s = "") then None else Some s
  | None => None
  end.

(** [!!x] for an optional boolean. *)
Definition to_bool (b : option bool) : bool := default false b.

Definition handleMessage (message : LiveServerMessage) (clkIn clkOut : Clock)
    : M unit :=
  (match serverContent message ≫= inputTranscription with
   | Some tr =>
       match truthy_text (transcription_text tr) with
       | Some txt =>
           onTranscriptionUpdate
             {| item_id := fresh_id clkIn; timestamp := now clkIn; text := txt;
                isUser := true;
                isComplete := to_bool (serverContent message ≫= turnComplete) |}
       | None => mret tt
       end
   | None => mret tt
   end) ;;
  match serverContent message ≫= outputTranscription with
  | Some tr =>
      match truthy_text (transcription_text tr) with
      | Some txt =>
          onTranscriptionUpdate
            {| item_id := fresh_id clkOut; timestamp := now clkOut; text := txt;
               isUser := false;
               isComplete := to_bool (serverContent message ≫= turnComplete) |}
      | None => mret tt
      end
  | None => mret tt
  end.

(** ** App *)

Definition cleanupTracks : M unit :=
  tracks ← gets activeTracksRef;
  forEach (λ track,
             try_catch (track_stop track)
                       (λ e, mret tt (* console.error *)))
          tracks ;;
  modify (with_activeTracks (λ _, [])).

(** What the platform answers during one run of [handleStartMeeting], in
    the order in which the handler asks. *)
Record StartEnv := {
  getUserMedia : Exn + MediaStream;
  getDisplayMedia : Exn + MediaStream;
  newAudioContext : Exn + AudioContextState;   (* [new AudioContext()] *)
  resume : Exn + unit;                         (* [audioContext.resume()] *)
  createMediaStreamDestination : Exn + MediaStream;   (* its [dest.stream] *)
  createGraph : Exn + unit;     (* the two sources, the two gains, the connects *)
  liveConnect : Exn + unit      (* [ai.live.connect], synchronous part *)
}.

(** The message computed in the [catch] block of [handleStartMeeting]. *)
Definition startErrorMessage (err : Exn) : string :=
  let msg :=
    if decide (message err = "")
    then "Failed to access audio. Ensure you select a tab with audio sharing enabled."
    else message err in
  if decide (name err = "NotAllowedError") then
    "Permission denied. Please allow microphone access and select a tab to share."
  else if negb (bool_decide (message err = ""))
          && includes "display-capture" (message err) then
    "Screen capture permission policy violation. Please refresh or try a different browser context."
  else msg.

(** The [try] block of [handleStartMeeting], in the closure of the render
    [snap]. *)
Definition startBody (snap : AppState) (env : StartEnv) : M unit :=
  (* 1. microphone *)
  micStream ← await (getUserMedia env);
  (if decide (length (getAudioTracks micStream) = 0) then
     throw (Error "No microphone audio track found. Please check your microphone settings.")
   else mret tt) ;;
  modify (with_activeTracks (λ ts, ts ++ getTracks micStream)) ;;
  (* 2. tab audio *)
  displayStream ← await (getDisplayMedia env);
  (if decide (length (getAudioTracks displayStream) = 0) then
     forEach track_stop (getTracks displayStream) ;;
     cleanupTracks ;;
     throw (Error "Tab audio not detected. Please ensure you check the 'Share tab audio' box in the sharing dialog.")
   else mret tt) ;;
  modify (with_activeTracks (λ ts, ts ++ getTracks displayStream)) ;;
  (* 3. mix *)
  st0 ← await (newAudioContext env);
  audioContext ← new_AudioContext st0;
  st ← gets (λ w, contexts w !! audioContext);
  (if decide (st = Some suspended) then
     await (resume env) ;;
     set_context_state audioContext running
   else mret tt) ;;
  dest ← await (createMediaStreamDestination env);
  await (createGraph env) ;;
  let mixedStream := dest in
  setStream (Some mixedStream) ;;
  (* connect to the service *)
  connect (liveConnect env) mixedStream ;;
  (* stream end: the handleStopMeeting of this same render *)
  match getVideoTracks displayStream with
  | videoTrack :: _ =>
      modify (with_onended (λ h, <[track_id videoTrack := snap]> h))
  | [] => mret tt
  end.

Definition handleStartMeeting (snap : AppState) (env : StartEnv) : M unit :=
  setErrorMsg None ;;
  cleanupTracks ;;
  try_catch (startBody snap env)
    (λ err,
       cleanupTracks ;;
       setErrorMsg (Some (startErrorMessage err)) ;;
       setConnectionState ERROR).

(** [handleStopMeeting] of the render [snap]; [geminiServiceRef.current] is
    set on mount and never cleared. *)
Definition handleStopMeeting (snap : AppState) : M unit :=
  disconnect ;;
  (if stream snap is Some s then forEach track_stop (getTracks s)
   else mret tt) ;;
  cleanupTracks ;;
  setStream None ;;
  setConnectionState DISCONNECTED.

Definition handleGenerateResponse (snap : AppState) : M unit :=
  if decide (connectionState snap ≠ CONNECTED) then mret tt
  else
    setIsGenerating true ;;
    setCurrentSuggestion None ;;
    requestSuggestion.

(** [onDismiss={() => setCurrentSuggestion(null)}] *)
Definition onDismiss : M unit := setCurrentSuggestion None.

(** ** Events

    Everything that can happen to a mounted [App].  A click runs the handler
    of the render that is on screen, whose snapshot is the current React
    state; a remotely ended video track runs the handler installed as its
    [onended], with the snapshot stored there. *)
Inductive Event :=
| ClickStart (env : StartEnv)
| ClickStop
| ClickGenerate
| ClickDismiss
| VideoEnded (t : nat)
| SessionOpen (st0 : AudioContextState) (mixed : MediaStream)
| SessionMessage (message : LiveServerMessage) (clkIn clkOut : Clock)
| SessionClose
| SessionError.

Definition handle (ev : Event) : M unit :=
  match ev with
  | ClickStart env => snap ← gets app; handleStartMeeting snap env
  | ClickStop => snap ← gets app; handleStopMeeting snap
  | ClickGenerate => snap ← gets app; handleGenerateResponse snap
  | ClickDismiss => onDismiss
  | VideoEnded t =>
      modify (with_ended (λ s, {[t]} ∪ s)) ;;
      h ← gets (λ w, onended w !! t);
      if h is Some snap then handleStopMeeting snap else mret tt
  | SessionOpen st0 mixed => onopen st0 mixed
  | SessionMessage message clkIn clkOut => handleMessage message clkIn clkOut
  | SessionClose => onclose
  | SessionError => onerror
  end.

Definition step (ev : Event) (w : World) : World := exec (handle ev) w.

Definition run (evs : list Event) (w : World) : World :=
  foldl (λ w ev, step ev w) w evs.

(** ** Derived notions used in the statements *)

(** The world after [track.stop()] has been called on each of [ts] in turn. *)
Definition stopped_by (ts : list MediaStreamTrack) (w : World) : World :=
  {| app := app w; svc := svc w; activeTracksRef := activeTracksRef w;
     ended := list_to_set (track_id <$> ts) ∪ ended w;
     contexts := contexts w; onended := onended w;
     trace := trace w ++ (EStop ∘ track_id <$> ts) |}.

(** A track is live while its readyState is not ended. *)
Definition live (w : World) (t : MediaStreamTrack) : Prop := track_id t ∉ ended w.

Definition all_stopped (w : World) (ts : list MediaStreamTrack) : Prop :=
  ∀ t, t ∈ ts → track_id t ∈ ended w.

(** The [track.stop()] calls recorded in a trace. *)
Definition stop_calls (tr : list Effect) : list nat :=
  omap (λ e, if e is EStop t then Some t else None) tr.

(** The text of a transcription field when it is present and non-empty. *)
Definition inputText (message : LiveServerMessage) : option string :=
  tr ← serverContent message ≫= inputTranscription;
  truthy_text (transcription_text tr).

Definition outputText (message : LiveServerMessage) : option string :=
  tr ← serverContent message ≫= outputTranscription;
  truthy_text (transcription_text tr).

(** The items [handleMessage] hands to the transcription callback, in the
    order of the calls. *)
Definition items_of_message (message : LiveServerMessage) (clkIn clkOut : Clock)
    : list TranscriptionItem :=
  match inputText message with
  | Some txt =>
      [ {| item_id := fresh_id clkIn; timestamp := now clkIn; text := txt;
           isUser := true;
           isComplete := to_bool (serverContent message ≫= turnComplete) |} ]
  | None => []
  end ++
  match outputText message with
  | Some txt =>
      [ {| item_id := fresh_id clkOut; timestamp := now clkOut; text := txt;
           isUser := false;
           isComplete := to_bool (serverContent message ≫= turnComplete) |} ]
  | None => []
  end.

(** The items a whole sequence of events dispatches to the log. *)
Definition dispatched (evs : list Event) : list TranscriptionItem :=
  evs ≫= (λ ev, if ev is SessionMessage m c1 c2 then items_of_message m c1 c2
                else []).

(** What reaches the transcript sink: an item from the service, or the user
    dismissing the suggestion card. *)
Inductive SinkEvent :=
| Arrived (item : TranscriptionItem)
| Dismissed.

Definition sink (e : SinkEvent) : M unit :=
  match e with
  | Arrived item => onTranscriptionUpdate item
  | Dismissed => onDismiss
  end.

Definition deliver (evs : list SinkEvent) (w : World) : World :=
  foldl (λ w e, exec (sink e) w) w evs.

(** The slot as the specification words it, reading the history backwards
    from the most recent event: the most recent output-side item, nothing if
    the slot was dismissed since, and the slot's earlier content [slot0] if
    neither happened. *)
Fixpoint latest_suggestion_from (slot0 : option TranscriptionItem)
    (newest_first : list SinkEvent) : option TranscriptionItem :=
  match newest_first with
  | [] => slot0
  | Dismissed :: _ => None
  | Arrived item :: older =>
      if isUser item then latest_suggestion_from slot0 older else Some item
  end.

Definition latest_suggestion (slot0 : option TranscriptionItem)
    (evs : list SinkEvent) : option TranscriptionItem :=
  latest_suggestion_from slot0 (reverse evs).

Definition arrived_items (evs : list SinkEvent) : list TranscriptionItem :=
  omap (λ e, if e is Arrived item then Some item else None) evs.

(** The ways in which the [try] block of [handleStartMeeting] throws, step
    by step, with the value thrown. *)
Inductive start_fails (env : StartEnv) : Exn → Prop :=
| MicRejected e :
    getUserMedia env = inl e →
    start_fails env e
| MicNoAudio mic :
    getUserMedia env = inr mic → getAudioTracks mic = [] →
    start_fails env
      (Error "No microphone audio track found. Please check your microphone settings.")
| TabRejected mic e :
    getUserMedia env = inr mic → getAudioTracks mic ≠ [] →
    getDisplayMedia env = inl e →
    start_fails env e
| TabNoAudio mic disp :
    getUserMedia env = inr mic → getAudioTracks mic ≠ [] →
    getDisplayMedia env = inr disp → getAudioTracks disp = [] →
    start_fails env
      (Error "Tab audio not detected. Please ensure you check the 'Share tab audio' box in the sharing dialog.")
| ContextRejected mic disp e :
    getUserMedia env = inr mic → getAudioTracks mic ≠ [] →
    getDisplayMedia env = inr disp → getAudioTracks disp ≠ [] →
    newAudioContext env = inl e →
    start_fails env e
| ResumeRejected mic disp e :
    getUserMedia env = inr mic → getAudioTracks mic ≠ [] →
    getDisplayMedia env = inr disp → getAudioTracks disp ≠ [] →
    newAudioContext env = inr suspended → resume env = inl e →
    start_fails env e
| DestinationFailed mic disp st0 e :
    getUserMedia env = inr mic → getAudioTracks mic ≠ [] →
    getDisplayMedia env = inr disp → getAudioTracks disp ≠ [] →
    newAudioContext env = inr st0 → (st0 = suspended → resume env = inr tt) →
    createMediaStreamDestination env = inl e →
    start_fails env e
| GraphFailed mic disp st0 dest e :
    getUserMedia env = inr mic → getAudioTracks mic ≠ [] →
    getDisplayMedia env = inr disp → getAudioTracks disp ≠ [] →
    newAudioContext env = inr st0 → (st0 = suspended → resume env = inr tt) →
    createMediaStreamDestination env = inr dest →
    createGraph env = inl e →
    start_fails env e.

(** The capture streams the platform handed out before the attempt ended:
    the microphone stream once [getUserMedia] resolved, the display stream
    once the microphone stream was accepted and [getDisplayMedia] resolved. *)
Definition acquired_sources (env : StartEnv) : list MediaStreamTrack :=
  match getUserMedia env with
  | inl _ => []
  | inr mic =>
      getTracks mic ++
      (if decide (getAudioTracks mic = []) then []
       else match getDisplayMedia env with
            | inl _ => []
            | inr disp => getTracks disp
            end)
  end.

(** [getUserMedia({ audio: true })] resolves with audio tracks only. *)
Definition mic_audio_only (env : StartEnv) : Prop :=
  ∀ mic, getUserMedia env = inr mic → Forall (λ t, kind t = Audio) mic.

(** A start attempt that gets as far as [connect]: both captures validated,
    the mixing context running, the graph built on [dest]. *)
Record start_reaches_connect (env : StartEnv)
    (mic disp dest : MediaStream) : Prop := {
  src_mic : getUserMedia env = inr mic;
  src_mic_audio : getAudioTracks mic ≠ [];
  src_disp : getDisplayMedia env = inr disp;
  src_disp_audio : getAudioTracks disp ≠ [];
  src_ctx : ∃ st0, newAudioContext env = inr st0 ∧
                   (st0 = suspended → resume env = inr tt);
  src_dest : createMediaStreamDestination env = inr dest;
  src_graph : createGraph env = inr tt
}.

(** ** Worlds and predicates used by the lemmas *)

(** The world in which the [try] block starts. *)
Definition start_prelude (w : World) : World :=
  with_activeTracks (λ _, [])
    (stopped_by (activeTracksRef w) (exec (setErrorMsg None) w)).

(** The world after the capture and mixing steps all succeeded, just before
    [connect] is called. *)
Definition mixed_world (mic disp dest : MediaStream) (st0 : AudioContextState)
    (w : World) : World :=
  exec (setStream (Some dest))
    (with_contexts
       (λ cs, cs ++ [if decide (st0 = suspended) then running else st0])
       (with_activeTracks (λ _, getTracks mic ++ getTracks disp) w)).

Definition install_onended (snap : AppState) (disp : MediaStream) (w : World)
    : World :=
  match getVideoTracks disp with
  | videoTrack :: _ => with_onended (λ h, <[track_id videoTrack := snap]> h) w
  | [] => w
  end.

(** Nothing is held and the state is Disconnected: the world any stop leaves
    behind, and the one the application starts in. *)
Definition released (w : World) : Prop :=
  connectionState (app w) = DISCONNECTED ∧ stream (app w) = None
  ∧ activeTracksRef w = [] ∧ sessionPromise (svc w) = None.

(** A computation leaves the observation [f] of the world unchanged. *)
Definition preserves {A B} (f : World → B) (m : M A) : Prop :=
  ∀ w, f (m w).2 = f w.

(** Session traffic and the suggestion buttons: every event but a start, a
    stop and a remote track end. *)
Definition in_session (ev : Event) : Prop :=
  match ev with
  | ClickStart _ | ClickStop | VideoEnded _ => False
  | _ => True
  end.

(** The three events of the specification's example, as server messages. *)
Definition inputEvent (txt : string) : LiveServerMessage :=
  {| serverContent := Some
       {| inputTranscription := Some {| transcription_text := Some txt |};
          outputTranscription := None; turnComplete := None |} |}.

Definition outputEvent (txt : string) : LiveServerMessage :=
  {| serverContent := Some
       {| inputTranscription := None;
          outputTranscription := Some {| transcription_text := Some txt |};
          turnComplete := Some true |} |}.

Definition clk (n : Z) : Clock := {| fresh_id := "id"; now := n |}.

(** ** A concrete session used in examples *)

Definition micTrack : MediaStreamTrack := {| track_id := 1; kind := Audio |}.
Definition tabVideo : MediaStreamTrack := {| track_id := 2; kind := Video |}.
Definition tabAudio : MediaStreamTrack := {| track_id := 3; kind := Audio |}.
Definition mixedTrack : MediaStreamTrack := {| track_id := 4; kind := Audio |}.

Definition micStream1 : MediaStream := [micTrack].
Definition displayStream1 : MediaStream := [tabVideo; tabAudio].
Definition mixedStream1 : MediaStream := [mixedTrack].

(** Every platform call succeeds. *)
Definition envOk : StartEnv :=
  {| getUserMedia := inr micStream1; getDisplayMedia := inr displayStream1;
     newAudioContext := inr running; resume := inr tt;
     createMediaStreamDestination := inr mixedStream1;
     createGraph := inr tt; liveConnect := inr tt |}.

(** The user shares a tab without ticking "share tab audio". *)
Definition envNoTabAudio : StartEnv :=
  {| getUserMedia := inr micStream1; getDisplayMedia := inr [tabVideo];
     newAudioContext := inr running; resume := inr tt;
     createMediaStreamDestination := inr mixedStream1;
     createGraph := inr tt; liveConnect := inr tt |}.

(** The mixing context starts suspended and cannot be resumed. *)
Definition envResumeFails : StartEnv :=
  {| getUserMedia := inr micStream1; getDisplayMedia := inr displayStream1;
     newAudioContext := inr suspended;
     resume := inl {| name := "InvalidStateError"; message := "cannot resume" |};
     createMediaStreamDestination := inr mixedStream1;
     createGraph := inr tt; liveConnect := inr tt |}.

(** The graph fails after the destination node and its stream exist. *)
Definition envGraphFails : StartEnv :=
  {| getUserMedia := inr micStream1; getDisplayMedia := inr displayStream1;
     newAudioContext := inr running; resume := inr tt;
     createMediaStreamDestination := inr mixedStream1;
     createGraph := inl {| name := "InvalidStateError"; message := "no audio" |};
     liveConnect := inr tt |}.

(** The SDK's connect call throws. *)
Definition envConnectFails : StartEnv :=
  {| getUserMedia := inr micStream1; getDisplayMedia := inr displayStream1;
     newAudioContext := inr running; resume := inr tt;
     createMediaStreamDestination := inr mixedStream1;
     createGraph := inr tt;
     liveConnect := inl {| name := "Error"; message := "API key missing" |} |}.

Definition item (ident : string) (txt : string) (user : bool) : TranscriptionItem :=
  {| item_id := ident; timestamp := 0; text := txt; isUser := user;
     isComplete := true |}.

(** ** The rest of [App]: unmount and what is rendered *)

(** The cleanup returned by the mount effect:
    [geminiServiceRef.current?.disconnect(); cleanupTracks();] *)
Definition unmount : M unit :=
  disconnect ;;
  cleanupTracks.

(** The status dot's class, by connection state. *)
Inductive StatusDot := DotGreen | DotYellowPulse | DotGrey.

Definition statusDot (s : ConnectionState) : StatusDot :=
  if decide (s = CONNECTED) then DotGreen
  else if decide (s = CONNECTING) then DotYellowPulse
  else DotGrey.

Definition statusText (s : ConnectionState) : string :=
  if decide (s = CONNECTED) then "Listening Active"
  else if decide (s = CONNECTING) then "Connecting..."
  else "Ready to Start".

(** Which of the two meeting buttons is rendered. *)
Inductive MeetingButton := StartMeetingButton | EndMeetingButton.

Definition meetingButton (s : ConnectionState) : MeetingButton :=
  if decide (s = DISCONNECTED ∨ s = ERROR) then StartMeetingButton
  else EndMeetingButton.

(** [disabled={connectionState !== ConnectionState.CONNECTED || isGenerating}] *)
Definition suggestDisabled (a : AppState) : bool :=
  bool_decide (connectionState a ≠ CONNECTED) || isGenerating a.

(** ** SuggestionCard *)

(** What the card renders: nothing, the spinner, or the quoted suggestion
    text together with the text its Copy button writes to the clipboard. *)
Inductive CardView :=
| CardHidden
| CardLoading
| CardSuggestion (quoted : option string) (copied : string).

Definition SuggestionCard (suggestion : option TranscriptionItem)
    (isLoading : bool) : CardView :=
  if negb (bool_decide (is_Some suggestion)) && negb isLoading then CardHidden
  else if isLoading then CardLoading
  else CardSuggestion
         (text <$> suggestion)
         (match text <$> suggestion with
          | Some t => if decide (t = "") then "" else t
          | None => ""
          end).

(** The card as [App] mounts it. *)
Definition suggestionCardOf (a : AppState) : CardView :=
  SuggestionCard (currentSuggestion a) (isGenerating a).

(** ** Transcript *)

Record Bubble := {
  bubble_key : string;
  bubble_start : bool;          (* items-start for the meeting, items-end for the AI *)
  bubble_label : string;
  bubble_text : string
}.

Inductive TranscriptView :=
| Placeholder                   (* "Listening for conversation..." *)
| Bubbles (bs : list Bubble).

Definition Transcript (items : list TranscriptionItem) : TranscriptView :=
  if decide (length items = 0) then Placeholder
  else Bubbles
         ((λ it, {| bubble_key := item_id it; bubble_start := isUser it;
                    bubble_label := if isUser it then "Meeting Audio"
                                    else "AI Assistant";
                    bubble_text := text it |}) <$> items).

(** ** AudioVisualizer: one frame of [draw]

    The canvas is 300 by 64, the analyser's [fftSize] is 256, so the byte
    array has 128 entries in 0..255.  Every number [draw] computes from them
    is a multiple of 1/64 far below 2^53, which a double holds exactly, so
    the arithmetic is modelled in exact rationals. *)

Inductive FillStyle := Background | Gradient.

(** One [ctx.fillRect(x, y, w, h)] with the fill style in force. *)
Record FillRect := {
  fill : FillStyle;
  rect_x : Q;
  rect_y : Q;
  rect_w : Q;
  rect_h : Q
}.

(** The body of the [for] loop, from bin [i] on, with [x] as it stands. *)
Fixpoint draw_bars (height barWidth x : Q) (dataArray : list Z)
    : list FillRect :=
  match dataArray with
  | [] => []
  | v :: rest =>
      let barHeight := (inject_Z v / 2)%Q in
      {| fill := Gradient; rect_x := x; rect_y := (height - barHeight)%Q;
         rect_w := barWidth; rect_h := barHeight |}
      :: draw_bars height barWidth (x + barWidth + 1)%Q rest
  end.

(** The [fillRect] calls of one [draw], in order, for a canvas of the given
    size and the analyser's current byte data. *)
Definition draw (width height : Q) (dataArray : list Z) : list FillRect :=
  let bufferLength := inject_Z (Z.of_nat (length dataArray)) in
  {| fill := Background; rect_x := 0; rect_y := 0;
     rect_w := width; rect_h := height |}
  :: (let barWidth := (width / bufferLength * (5 # 2))%Q in
      draw_bars height barWidth 0%Q dataArray).

(** The canvas the component renders: [width={300} height={64}]. *)
Definition canvasWidth : Q := 300%Q.
Definition canvasHeight : Q := 64%Q.

(** A computation only ever ends more tracks and only appends to the trace. *)
Definition grows {A} (m : M A) : Prop :=
  ∀ w, ended w ⊆ ended (m w).2 ∧ ∃ rest, trace (m w).2 = trace w ++ rest.

(** * Proofs *)

(** ** Running a computation *)

Lemma bind_run {A B} (m : M A) (k : A → M B) w :
  (m ≫= k) w =
  match m w with
  | (inl e, w') => (inl e, w')
  | (inr a, w') => k a w'
  end.
Proof. reflexivity. Qed.

Lemma ret_run {A} (a : A) w : (mret a : M A) w = (inr a, w).
Proof. reflexivity. Qed.

Lemma try_catch_run {A} (body : M A) handler w :
  try_catch body handler w =
  match body w with
  | (inl e, w') => handler e w'
  | r => r
  end.
Proof. reflexivity. Qed.

Lemma stopped_by_nil w : stopped_by [] w = w.
Proof.
  destruct w; unfold stopped_by; simpl.
  f_equal; [apply (left_id_L ∅ (∪)) | apply app_nil_r].
Qed.

Lemma stopped_by_cons t ts w :
  stopped_by ts (exec (track_stop t) w) = stopped_by (t :: ts) w.
Proof.
  unfold stopped_by, exec, track_stop; simpl.
  f_equal; [| by rewrite <- app_assoc].
  by rewrite (assoc_L (∪)), (comm_L (∪) (list_to_set _)).
Qed.

Lemma forEach_track_stop ts w :
  forEach track_stop ts w = (inr tt, stopped_by ts w).
Proof.
  revert w; induction ts as [|t ts IH]; intros w.
  - by rewrite stopped_by_nil.
  - cbn [forEach]. rewrite bind_run.
    change (track_stop t w) with (inr tt : Exn + unit, exec (track_stop t) w).
    cbv beta iota. by rewrite IH, stopped_by_cons.
Qed.

Lemma forEach_guarded_track_stop ts w :
  forEach (λ track, try_catch (track_stop track) (λ e, mret tt)) ts w
  = (inr tt, stopped_by ts w).
Proof.
  revert w; induction ts as [|t ts IH]; intros w.
  - by rewrite stopped_by_nil.
  - cbn [forEach]. rewrite bind_run, try_catch_run.
    change (track_stop t w) with (inr tt : Exn + unit, exec (track_stop t) w).
    cbv beta iota. by rewrite IH, stopped_by_cons.
Qed.

Lemma cleanupTracks_run w :
  cleanupTracks w =
  (inr tt, with_activeTracks (λ _, []) (stopped_by (activeTracksRef w) w)).
Proof.
  unfold cleanupTracks. rewrite bind_run. cbn [gets].
  by rewrite bind_run, forEach_guarded_track_stop.
Qed.

Lemma modify_run f w : modify f w = (inr tt, f w).
Proof. reflexivity. Qed.

Lemma gets_run {A} (f : World → A) w : gets f w = (inr (f w), w).
Proof. reflexivity. Qed.

Lemma await_run {A} (o : Exn + A) w : await o w = (o, w).
Proof. reflexivity. Qed.

Lemma throw_run {A} e w : @throw A e w = (inl e, w).
Proof. reflexivity. Qed.

(** Evaluate a computation applied to a world, statement by statement,
    without unfolding the loops over track lists. *)
Ltac mrun :=
  repeat (first
    [ rewrite bind_run | rewrite ret_run | rewrite try_catch_run
    | rewrite cleanupTracks_run | rewrite forEach_track_stop
    | rewrite modify_run | rewrite gets_run | rewrite await_run
    | rewrite throw_run ];
    cbv beta iota).

Ltac unfold_setters :=
  unfold setConnectionState, setStream, setTranscripts, setCurrentSuggestion,
    setIsGenerating, setErrorMsg, set_sessionPromise, set_inputAudioContext,
    set_mediaStreamSource, set_scriptProcessor, set_context_state,
    onStateChange.

(** ** The service *)

Lemma stopAudioStream_ok w : (stopAudioStream w).1 = inr tt.
Proof.
  unfold stopAudioStream; unfold_setters.
  destruct w as [a [p c m s] ? ? ? ? ?]; destruct c, m, s; reflexivity.
Qed.

Lemma disconnect_ok w : (disconnect w).1 = inr tt.
Proof.
  unfold disconnect, stopAudioStream; unfold_setters.
  destruct w as [a [p c m s] ? ? ? ? ?]; destruct p, c, m, s; reflexivity.
Qed.

Lemma disconnect_run w : disconnect w = (inr tt, exec disconnect w).
Proof.
  unfold exec. pose proof (disconnect_ok w) as H.
  destruct (disconnect w) as [r w']; simpl in *; by subst.
Qed.

Lemma disconnect_state w :
  connectionState (app (exec disconnect w)) = DISCONNECTED.
Proof.
  unfold exec, disconnect, stopAudioStream; unfold_setters.
  destruct w as [a [p c m s] ? ? ? ? ?]; destruct p, c, m, s; reflexivity.
Qed.

Lemma disconnect_trace w :
  trace (exec disconnect w) = trace w ++ [ENotify DISCONNECTED].
Proof.
  unfold exec, disconnect, stopAudioStream; unfold_setters.
  destruct w as [a [p c m s] ? ? ? ? ?]; destruct p, c, m, s; reflexivity.
Qed.

Lemma disconnect_frame w :
  let w' := exec disconnect w in
  stream (app w') = stream (app w) ∧
  transcripts (app w') = transcripts (app w) ∧
  currentSuggestion (app w') = currentSuggestion (app w) ∧
  isGenerating (app w') = isGenerating (app w) ∧
  errorMsg (app w') = errorMsg (app w) ∧
  activeTracksRef w' = activeTracksRef w ∧
  ended w' = ended w ∧
  onended w' = onended w ∧
  sessionPromise (svc w') = None.
Proof.
  unfold exec, disconnect, stopAudioStream; unfold_setters.
  destruct w as [a [p c m s] ? ? ? ? ?]; destruct p, c, m, s;
    repeat split; reflexivity.
Qed.

(** Without a session promise, [disconnect] only notifies. *)
Lemma disconnect_no_session w :
  sessionPromise (svc w) = None →
  exec disconnect w =
  exec (setConnectionState DISCONNECTED) (emit (ENotify DISCONNECTED) w).
Proof.
  intros H. unfold exec, disconnect. mrun. rewrite H. reflexivity.
Qed.

Lemma connect_run lc dest w :
  connect lc dest w = (inr tt, exec (connect lc dest) w).
Proof.
  unfold exec, connect; unfold_setters. destruct lc as [e|[]]; reflexivity.
Qed.

Lemma connect_state lc dest w :
  connectionState (app (exec (connect lc dest) w))
  = if lc is inr _ then CONNECTING else ERROR.
Proof.
  unfold exec, connect; unfold_setters. destruct lc as [e|[]]; reflexivity.
Qed.

Lemma handleStopMeeting_run snap w :
  handleStopMeeting snap w =
  (inr tt,
   exec (setConnectionState DISCONNECTED)
     (exec (setStream None)
        (with_activeTracks (λ _, [])
           (stopped_by
              (activeTracksRef w)
              (stopped_by (default [] (stream snap)) (exec disconnect w)))))).
Proof.
  unfold handleStopMeeting. rewrite bind_run, disconnect_run. cbv beta iota.
  destruct (stream snap) as [s|]; simpl default; mrun.
  - unfold getTracks. cbn [activeTracksRef stopped_by].
    destruct (disconnect_frame w) as (_&_&_&_&_&->&_). reflexivity.
  - rewrite stopped_by_nil.
    destruct (disconnect_frame w) as (_&_&_&_&_&->&_). reflexivity.
Qed.

(** ** Starting *)

Lemma audio_tracks_length (s : MediaStream) :
  length (getAudioTracks s) = 0 ↔ getAudioTracks s = [].
Proof. split; [apply nil_length_inv | by intros ->]. Qed.

Lemma lookup_new_context (cs : list AudioContextState) st0 :
  (cs ++ [st0]) !! length cs = Some st0.
Proof. by rewrite list_lookup_middle. Qed.

Lemma resumed_context (cs : list AudioContextState) st0 st :
  <[length cs := st]> (cs ++ [st0]) = cs ++ [st].
Proof.
  rewrite insert_app_r_alt, Nat.sub_diag by lia. reflexivity.
Qed.

Lemma handleStartMeeting_run snap env w :
  handleStartMeeting snap env w =
  match startBody snap env (start_prelude w) with
  | (inl err, w') =>
      (inr tt,
       exec (setConnectionState ERROR)
         (exec (setErrorMsg (Some (startErrorMessage err)))
            (with_activeTracks (λ _, []) (stopped_by (activeTracksRef w') w'))))
  | r => r
  end.
Proof.
  unfold handleStartMeeting, start_prelude.
  rewrite bind_run.
  change (setErrorMsg None w) with (inr tt : Exn + unit, exec (setErrorMsg None) w).
  cbv beta iota. rewrite bind_run, cleanupTracks_run. cbv beta iota.
  rewrite try_catch_run.
  destruct (startBody _ _ _) as [[err|[]] w']; [|reflexivity].
  rewrite bind_run, cleanupTracks_run. cbv beta iota. reflexivity.
Qed.

Lemma startBody_run snap env mic disp dest st0 w :
  getUserMedia env = inr mic → getAudioTracks mic ≠ [] →
  getDisplayMedia env = inr disp → getAudioTracks disp ≠ [] →
  newAudioContext env = inr st0 → (st0 = suspended → resume env = inr tt) →
  createMediaStreamDestination env = inr dest →
  createGraph env = inr tt →
  activeTracksRef w = [] →
  startBody snap env w =
  (inr tt,
   install_onended snap disp
     (exec (connect (liveConnect env) dest) (mixed_world mic disp dest st0 w))).
Proof.
  intros Hm Hma Hd Hda Hc Hr Hdest Hg Hact.
  unfold startBody. rewrite Hm, Hd, Hc, Hdest, Hg.
  rewrite bind_run, await_run. cbv beta iota.
  rewrite bind_run. case_decide as Hl; [by apply audio_tracks_length in Hl|].
  mrun. case_decide as Hl2; [by apply audio_tracks_length in Hl2|].
  mrun. unfold new_AudioContext. mrun.
  cbn [contexts with_contexts with_activeTracks].
  rewrite lookup_new_context.
  assert (Hw : ∀ st, st = (if decide (st0 = suspended) then running else st0) →
            with_app
              (λ a, {| connectionState := connectionState a; stream := Some dest;
                       transcripts := transcripts a;
                       currentSuggestion := currentSuggestion a;
                       isGenerating := isGenerating a; errorMsg := errorMsg a |})
              (with_contexts (λ cs, cs ++ [st])
                 (with_activeTracks (λ _, getTracks mic ++ getTracks disp) w))
            = mixed_world mic disp dest st0 w).
  { by intros st ->. }
  assert (Hfin : ∀ w0, match getVideoTracks disp with
                       | [] => mret ()
                       | videoTrack :: _ =>
                           modify (with_onended
                                     (λ h, <[track_id videoTrack:=snap]> h))
                       end w0 = (inr tt, install_onended snap disp w0)).
  { intros w0. unfold install_onended. by destruct (getVideoTracks disp). }
  destruct (decide (Some st0 = Some suspended)) as [Hs|Hs].
  - injection Hs as ->. rewrite (Hr eq_refl). unfold set_context_state. mrun.
    unfold setStream at 1. mrun. rewrite connect_run. cbv beta iota.
    rewrite Hfin. do 3 f_equal. rewrite <- (Hw running) by done.
    destruct w; simpl in *; subst. unfold with_app, with_contexts; simpl.
    by rewrite resumed_context.
  - mrun. unfold setStream at 1. mrun. rewrite connect_run. cbv beta iota.
    rewrite Hfin. do 3 f_equal. rewrite <- (Hw st0).
    + destruct w; simpl in *; by subst.
    + rewrite decide_False; [done | congruence].
Qed.

(** ** Frame reasoning: what a computation leaves alone *)

Section Preserves.
Context {B : Type} (f : World → B).

Lemma preserves_ret {A} (a : A) : preserves f (mret a : M A).
Proof. by intros w. Qed.

Lemma preserves_throw {A} e : preserves f (@throw A e).
Proof. by intros w. Qed.

Lemma preserves_await {A} (o : Exn + A) : preserves f (await o).
Proof. by intros w. Qed.

Lemma preserves_gets {A} (g : World → A) : preserves f (gets g).
Proof. by intros w. Qed.

Lemma preserves_modify g : (∀ w, f (g w) = f w) → preserves f (modify g).
Proof. intros H w. apply H. Qed.

Lemma preserves_bind {A C} (m : M A) (k : A → M C) :
  preserves f m → (∀ a, preserves f (k a)) → preserves f (m ≫= k).
Proof.
  intros Hm Hk w. rewrite bind_run. specialize (Hm w).
  destruct (m w) as [[e|a] w']; simpl in *; [done|].
  by rewrite Hk.
Qed.

Lemma preserves_try_catch {A} (body : M A) handler :
  preserves f body → (∀ e, preserves f (handler e)) →
  preserves f (try_catch body handler).
Proof.
  intros Hm Hk w. rewrite try_catch_run. specialize (Hm w).
  destruct (body w) as [[e|a] w']; simpl in *; [|done].
  by rewrite Hk.
Qed.

Lemma preserves_forEach {A} (g : A → M unit) xs :
  (∀ x, preserves f (g x)) → preserves f (forEach g xs).
Proof.
  intros Hg. induction xs as [|x xs IH]; [apply preserves_ret|].
  apply preserves_bind; [apply Hg | by intros _].
Qed.
End Preserves.

Ltac frame_step :=
  first
    [ apply preserves_ret | apply preserves_throw | apply preserves_await
    | apply preserves_gets
    | apply preserves_modify; intros ?; reflexivity
    | apply preserves_bind; [| intros ?]
    | apply preserves_try_catch; [| intros ?]
    | apply preserves_forEach; intros ?
    | case_match | case_decide ].

Ltac frame :=
  unfold handleStartMeeting, startBody, handleStopMeeting,
    handleGenerateResponse, onDismiss, onopen, onclose, onerror, connect,
    disconnect, requestSuggestion, startAudioStream, stopAudioStream,
    cleanupTracks, new_AudioContext, track_stop;
  unfold_setters; cbv zeta;
  repeat frame_step.

(** Everything but a server message leaves the transcript alone. *)
Lemma handle_preserves_transcripts ev :
  (∀ m c1 c2, ev ≠ SessionMessage m c1 c2) →
  preserves (λ w, transcripts (app w)) (handle ev).
Proof.
  intros Hev.
  destruct ev as [env| | | |t|st0 mixed|m c1 c2| |]; unfold handle;
    try (by frame).
  by destruct (Hev m c1 c2).
Qed.

(** Session traffic leaves the mixed stream, the captured tracks and the
    tracks' state alone. *)
Lemma in_session_preserves_stream ev :
  in_session ev → preserves (λ w, stream (app w)) (handle ev).
Proof.
  destruct ev; try done; intros _; unfold handle; by frame.
Qed.

Lemma in_session_preserves_activeTracks ev :
  in_session ev → preserves activeTracksRef (handle ev).
Proof.
  destruct ev; try done; intros _; unfold handle; by frame.
Qed.

Lemma in_session_preserves_ended ev :
  in_session ev → preserves ended (handle ev).
Proof.
  destruct ev; try done; intros _; unfold handle; by frame.
Qed.

(** ** The transcript sink *)

Lemma onTranscriptionUpdate_run item w :
  onTranscriptionUpdate item w = (inr tt, exec (onTranscriptionUpdate item) w).
Proof. unfold exec, onTranscriptionUpdate. by destruct (isUser item). Qed.

Lemma onTranscriptionUpdate_transcripts item w :
  transcripts (app (exec (onTranscriptionUpdate item) w))
  = transcripts (app w) ++ [item].
Proof. unfold exec, onTranscriptionUpdate. by destruct (isUser item). Qed.

Lemma onTranscriptionUpdate_suggestion item w :
  currentSuggestion (app (exec (onTranscriptionUpdate item) w))
  = if isUser item then currentSuggestion (app w) else Some item.
Proof. unfold exec, onTranscriptionUpdate. by destruct (isUser item). Qed.

Lemma onTranscriptionUpdate_generating item w :
  isGenerating (app (exec (onTranscriptionUpdate item) w))
  = if isUser item then isGenerating (app w) else false.
Proof. unfold exec, onTranscriptionUpdate. by destruct (isUser item). Qed.

(** [handleMessage] calls the transcription callback on exactly the items of
    the message, input side first. *)
Lemma handleMessage_items message clkIn clkOut w :
  handleMessage message clkIn clkOut w
  = forEach onTranscriptionUpdate (items_of_message message clkIn clkOut) w.
Proof.
  unfold handleMessage, items_of_message, inputText, outputText.
  rewrite bind_run.
  destruct (serverContent message ≫= inputTranscription) as [[ti]|];
    destruct (serverContent message ≫= outputTranscription) as [[to]|];
    cbn [mbind option_bind transcription_text];
    repeat (match goal with
            | |- context [truthy_text ?t] => destruct (truthy_text t)
            end);
    cbn [List.app forEach]; rewrite ?bind_run, ?onTranscriptionUpdate_run, ?ret_run;
    cbv beta iota; rewrite ?onTranscriptionUpdate_run; reflexivity.
Qed.

Lemma forEach_onTranscriptionUpdate_transcripts items w :
  transcripts (app (exec (forEach onTranscriptionUpdate items) w))
  = transcripts (app w) ++ items.
Proof.
  revert w; induction items as [|it items IH]; intros w.
  - by rewrite app_nil_r.
  - unfold exec in *. cbn [forEach]. rewrite bind_run, onTranscriptionUpdate_run.
    cbv beta iota. rewrite IH, onTranscriptionUpdate_transcripts.
    by rewrite <- app_assoc.
Qed.

Lemma step_transcripts ev w :
  transcripts (app (step ev w))
  = transcripts (app w) ++ dispatched [ev].
Proof.
  unfold dispatched. cbn [mbind list_bind]. rewrite app_nil_r.
  destruct ev as [env| | | |t|st0 mixed|m c1 c2| |];
    try (rewrite app_nil_r; by apply handle_preserves_transcripts).
  unfold step, exec, handle. rewrite handleMessage_items.
  apply forEach_onTranscriptionUpdate_transcripts.
Qed.

Lemma dispatched_cons ev evs : dispatched (ev :: evs) = dispatched [ev] ++ dispatched evs.
Proof. unfold dispatched. cbn [mbind list_bind]. by rewrite app_nil_r. Qed.

(** C4.  The transcript log is append-only and order-preserving: whatever
    sequence of events the application goes through (starts, stops,
    suggestion requests, dismissals, remote track ends, session callbacks),
    the log afterwards is the log before followed by exactly the items the
    server messages carried with non-empty text, in dispatch order (input
    side before output side within one message); so earlier entries are
    never changed or removed, and a dismissal leaves the log as it is. *)
Theorem transcript_append_only (evs : list Event) (w : World) :
  transcripts (app (run evs w)) = transcripts (app w) ++ dispatched evs
  ∧ transcripts (app (step ClickDismiss w)) = transcripts (app w).
Proof.
  split.
  - revert w; induction evs as [|ev evs IH]; intros w.
    + by rewrite app_nil_r.
    + cbn [run foldl]. fold (run evs (step ev w)).
      rewrite IH, step_transcripts, (dispatched_cons ev evs).
      by rewrite <- app_assoc.
  - reflexivity.
Qed.

(** The specification's example of three events. *)
Example transcript_order_example :
  text <$> transcripts (app (run
    [ SessionMessage (inputEvent "hello") (clk 1) (clk 1);
      SessionMessage (outputEvent "hi there") (clk 2) (clk 2);
      SessionMessage (inputEvent "how are you") (clk 3) (clk 3) ] initialWorld))
  = ["hello"; "hi there"; "how are you"].
Proof. reflexivity. Qed.

(** *** The current-suggestion slot *)

Lemma deliver_snoc evs e w :
  deliver (evs ++ [e]) w = exec (sink e) (deliver evs w).
Proof. unfold deliver. by rewrite foldl_snoc. Qed.

Lemma latest_suggestion_snoc slot0 evs e :
  latest_suggestion slot0 (evs ++ [e]) =
  match e with
  | Dismissed => None
  | Arrived item =>
      if isUser item then latest_suggestion slot0 evs else Some item
  end.
Proof. unfold latest_suggestion. rewrite reverse_snoc. by destruct e. Qed.

Lemma deliver_suggestion evs w :
  currentSuggestion (app (deliver evs w))
  = latest_suggestion (currentSuggestion (app w)) evs.
Proof.
  induction evs as [|e evs IH] using rev_ind; [done|].
  rewrite deliver_snoc, latest_suggestion_snoc. destruct e as [item|].
  - cbn [sink]. rewrite onTranscriptionUpdate_suggestion, IH. reflexivity.
  - reflexivity.
Qed.

Lemma deliver_transcripts evs w :
  transcripts (app (deliver evs w)) = transcripts (app w) ++ arrived_items evs.
Proof.
  induction evs as [|e evs IH] using rev_ind; [by rewrite app_nil_r|].
  rewrite deliver_snoc. unfold arrived_items in *. rewrite omap_app.
  destruct e as [item|]; cbn [sink omap list_omap].
  - rewrite onTranscriptionUpdate_transcripts, IH. by rewrite <- app_assoc.
  - rewrite app_nil_r. exact IH.
Qed.

(** C5.  After any sequence of arriving items and dismissals, the slot holds
    the most recent output-side item (nothing if it was dismissed since, the
    earlier content if no output item arrived at all); the log holds every
    item that arrived, output-side ones included, in arrival order; and
    right after an output-side item arrives the is-generating indicator is
    off. *)
Theorem current_suggestion_is_latest_output (evs : list SinkEvent) (w : World) :
  currentSuggestion (app (deliver evs w))
    = latest_suggestion (currentSuggestion (app w)) evs
  ∧ transcripts (app (deliver evs w)) = transcripts (app w) ++ arrived_items evs
  ∧ (∀ item, Arrived item ∈ evs → item ∈ transcripts (app (deliver evs w)))
  ∧ (∀ item, isUser item = false →
       isGenerating (app (deliver (evs ++ [Arrived item]) w)) = false
       ∧ currentSuggestion (app (deliver (evs ++ [Arrived item]) w)) = Some item).
Proof.
  split; [apply deliver_suggestion|].
  split; [apply deliver_transcripts|].
  split.
  - intros item Hin. rewrite deliver_transcripts.
    apply elem_of_app; right. unfold arrived_items.
    apply list_elem_of_omap. by exists (Arrived item).
  - intros item Hout. rewrite deliver_snoc. cbn [sink].
    by rewrite onTranscriptionUpdate_generating,
      onTranscriptionUpdate_suggestion, Hout.
Qed.

(** The specification's example: E2 then a later E4 on the output side. *)
Example current_suggestion_example :
  let w := deliver [ Arrived (item "1" "hello" true);
                     Arrived (item "2" "hi there" false);
                     Arrived (item "3" "how are you" true);
                     Arrived (item "4" "I'm good" false) ] initialWorld in
  text <$> currentSuggestion (app w) = Some "I'm good"
  ∧ text <$> transcripts (app w) = ["hello"; "hi there"; "how are you"; "I'm good"].
Proof. split; reflexivity. Qed.

(** C9.  A server message produces a transcription item only for a field
    whose text is present and non-empty: [handleMessage] calls the callback on
    exactly [items_of_message]; with the input text empty or absent none of
    those items is input-side, with the output text empty or absent none is
    output-side and the suggestion slot keeps its content, and with both
    empty or absent the callback is not called at all and the world is left
    exactly as it was. *)
Theorem empty_transcription_produces_no_item
    (message : LiveServerMessage) (clkIn clkOut : Clock) (w : World) :
  handleMessage message clkIn clkOut w
    = forEach onTranscriptionUpdate (items_of_message message clkIn clkOut) w
  ∧ (inputText message = None →
     Forall (λ it, isUser it = false) (items_of_message message clkIn clkOut))
  ∧ (outputText message = None →
     Forall (λ it, isUser it = true) (items_of_message message clkIn clkOut)
     ∧ currentSuggestion (app (exec (handleMessage message clkIn clkOut) w))
       = currentSuggestion (app w))
  ∧ (inputText message = None → outputText message = None →
     handleMessage message clkIn clkOut w = (inr tt, w)).
Proof.
  split; [apply handleMessage_items|].
  unfold exec. rewrite handleMessage_items. unfold items_of_message.
  split; [|split].
  - intros ->. destruct (outputText message); repeat constructor.
  - intros ->. destruct (inputText message); [|by split].
    split; [by repeat constructor|].
    cbn [List.app forEach]. rewrite bind_run, onTranscriptionUpdate_run.
    cbv beta iota. rewrite ret_run. cbn [snd].
    by rewrite onTranscriptionUpdate_suggestion.
  - intros -> ->. reflexivity.
Qed.

(** An absent text, an empty text, an absent field, an absent content. *)
Lemma empty_transcription_witness :
  let message :=
    {| serverContent := Some
         {| inputTranscription := Some {| transcription_text := Some "" |};
            outputTranscription := Some {| transcription_text := None |};
            turnComplete := Some true |} |} in
  inputText message = None ∧ outputText message = None
  ∧ handleMessage message (clk 1) (clk 2) initialWorld = (inr tt, initialWorld).
Proof.
  intros message.
  split; [reflexivity|]. split; [reflexivity|].
  apply (empty_transcription_produces_no_item message (clk 1) (clk 2) initialWorld);
    reflexivity.
Defined.

(** C7.  A suggestion request from a render whose connection state is
    Disconnected does nothing at all: the handler returns at its guard, so
    the world (log, connection state, suggestion slot, trace of payloads
    sent) is the same world; and the service's own [requestSuggestion] does
    nothing either when there is no session promise. *)
Theorem request_suggestion_while_disconnected (snap : AppState) (w : World) :
  connectionState snap = DISCONNECTED →
  handleGenerateResponse snap w = (inr tt, w)
  ∧ (connectionState (app w) = DISCONNECTED → step ClickGenerate w = w)
  ∧ (sessionPromise (svc w) = None → requestSuggestion w = (inr tt, w)).
Proof.
  intros Hs. split; [|split].
  - unfold handleGenerateResponse. rewrite Hs. reflexivity.
  - intros Hw. unfold step, exec, handle. rewrite bind_run, gets_run.
    cbv beta iota. unfold handleGenerateResponse. rewrite Hw. reflexivity.
  - intros Hp. unfold requestSuggestion. rewrite bind_run, gets_run.
    cbv beta iota. rewrite Hp. reflexivity.
Qed.

Lemma request_suggestion_while_disconnected_witness :
  connectionState initialApp = DISCONNECTED
  ∧ handleGenerateResponse initialApp initialWorld = (inr tt, initialWorld)
  ∧ step ClickGenerate initialWorld = initialWorld
  ∧ requestSuggestion initialWorld = (inr tt, initialWorld).
Proof.
  pose proof (request_suggestion_while_disconnected initialApp initialWorld
                eq_refl) as (H1 & H2 & H3).
  split; [reflexivity|]. split; [exact H1|].
  split; [exact (H2 eq_refl) | exact (H3 eq_refl)].
Defined.

(** C10.  [disconnect] never throws and always ends by calling the
    state-change callback with Disconnected, whatever the world it is called
    in (session promise set or not, any connection state): the call returns
    normally, the connection state is then Disconnected, the notification is
    the one effect it adds to the trace, and no session promise is left. *)
Theorem disconnect_always_notifies (w : World) :
  ∃ w', disconnect w = (inr tt, w')
        ∧ connectionState (app w') = DISCONNECTED
        ∧ trace w' = trace w ++ [ENotify DISCONNECTED]
        ∧ sessionPromise (svc w') = None.
Proof.
  exists (exec disconnect w).
  split; [apply disconnect_run|].
  split; [apply disconnect_state|].
  split; [apply disconnect_trace|].
  apply disconnect_frame.
Qed.

(** Disconnecting in the Error state, without a session ever opened. *)
Example disconnect_in_error_state :
  let w := exec (setConnectionState ERROR) initialWorld in
  disconnect w = (inr tt, emit (ENotify DISCONNECTED) initialWorld).
Proof. reflexivity. Qed.

(** ** Start attempts that fail *)

Lemma startErrorMessage_nonempty err : startErrorMessage err ≠ "".
Proof.
  unfold startErrorMessage.
  repeat case_decide; try done; by destruct (_ && _).
Qed.

(** Evaluate the capture steps of [startBody] under the hypotheses at hand. *)
Ltac start_steps :=
  unfold startBody;
  repeat match goal with
         | H : getUserMedia _ = _ |- _ => rewrite H
         | H : getDisplayMedia _ = _ |- _ => rewrite H
         | H : newAudioContext _ = _ |- _ => rewrite H
         | H : createMediaStreamDestination _ = _ |- _ => rewrite H
         | H : createGraph _ = _ |- _ => rewrite H
         end;
  repeat (mrun;
          try match goal with
              | |- context [decide (length (getAudioTracks ?s) = 0)] =>
                  let Hlen := fresh "Hlen" in
                  destruct (decide (length (getAudioTracks s) = 0)) as [Hlen|Hlen];
                  [ apply audio_tracks_length in Hlen
                  | rewrite audio_tracks_length in Hlen ];
                  try done
              end).

Lemma startBody_fails snap env e w :
  start_fails env e → activeTracksRef w = [] →
  ∃ w', startBody snap env w = (inl e, w')
        ∧ (mic_audio_only env →
           ∀ t, t ∈ acquired_sources env →
                t ∈ activeTracksRef w' ∨ track_id t ∈ ended w').
Proof.
  intros Hf Hact.
  destruct Hf as [e Hm | mic Hm Hma | mic e Hm Hma Hd | mic disp Hm Hma Hd Hda
                 | mic disp e Hm Hma Hd Hda Hc
                 | mic disp e Hm Hma Hd Hda Hc Hr
                 | mic disp st0 e Hm Hma Hd Hda Hc Hr Hdest
                 | mic disp st0 dest e Hm Hma Hd Hda Hc Hr Hdest Hg ];
    unfold acquired_sources; rewrite Hm; try rewrite Hd;
    try (rewrite (decide_False (P := getAudioTracks mic = [])) by done).
  - start_steps. eexists; split; [reflexivity|]. intros Hmic t Ht. by apply elem_of_nil in Ht.
  - start_steps. eexists; split; [reflexivity|].
    rewrite decide_True by done. rewrite app_nil_r. intros Hmic t Ht.
    specialize (Hmic mic Hm). rewrite Forall_forall in Hmic.
    destruct (filter_nil_not_elem_of _ _ t Hma (Hmic t Ht) Ht).
  - start_steps. eexists; split; [reflexivity|].
    rewrite app_nil_r. intros Hmic t Ht. left. cbn. rewrite Hact. exact Ht.
  - start_steps. eexists; split; [reflexivity|].
    intros Hmic t Ht. right. cbn. rewrite Hact. cbn.
    unfold getTracks in *. apply elem_of_app in Ht as [Ht|Ht].
    + apply elem_of_union; left. apply elem_of_list_to_set.
      apply list_elem_of_fmap. by exists t.
    + apply elem_of_union; right. apply elem_of_union; left.
      apply elem_of_list_to_set. apply list_elem_of_fmap. by exists t.
  - start_steps. eexists; split; [reflexivity|].
    intros Hmic t Ht. left. cbn. by rewrite Hact.
  - start_steps. unfold new_AudioContext. mrun.
    cbn [contexts with_contexts with_activeTracks]. rewrite lookup_new_context.
    rewrite decide_True by done. rewrite Hr. mrun.
    eexists; split; [reflexivity|].
    intros Hmic t Ht. left. cbn. by rewrite Hact.
  - start_steps. unfold new_AudioContext. mrun.
    cbn [contexts with_contexts with_activeTracks]. rewrite lookup_new_context.
    destruct (decide (Some st0 = Some suspended)) as [Hs|Hs].
    + injection Hs as ->. rewrite (Hr eq_refl). unfold set_context_state. mrun.
      eexists; split; [reflexivity|].
      intros Hmic t Ht. left. cbn. by rewrite Hact.
    + mrun. eexists; split; [reflexivity|].
      intros Hmic t Ht. left. cbn. by rewrite Hact.
  - start_steps. unfold new_AudioContext. mrun.
    cbn [contexts with_contexts with_activeTracks]. rewrite lookup_new_context.
    destruct (decide (Some st0 = Some suspended)) as [Hs|Hs].
    + injection Hs as ->. rewrite (Hr eq_refl). unfold set_context_state. mrun.
      eexists; split; [reflexivity|].
      intros Hmic t Ht. left. cbn. by rewrite Hact.
    + mrun. eexists; split; [reflexivity|].
      intros Hmic t Ht. left. cbn. by rewrite Hact.
Qed.

(** [start_fails] lists every way in which the [try] block throws. *)
Lemma startBody_throws snap env e w w' :
  activeTracksRef w = [] →
  startBody snap env w = (inl e, w') → start_fails env e.
Proof.
  intros Hact Hrun.
  assert (Hcase : ∀ e0, start_fails env e0 → start_fails env e).
  { intros e0 Hf. destruct (startBody_fails snap env e0 w Hf Hact) as (w0 & H0 & _).
    rewrite H0 in Hrun. by injection Hrun as <- _. }
  destruct (getUserMedia env) as [e1|mic] eqn:Hm;
    [by apply (Hcase e1), MicRejected|].
  destruct (decide (getAudioTracks mic = [])) as [Hma|Hma];
    [by eapply Hcase, MicNoAudio|].
  destruct (getDisplayMedia env) as [e1|disp] eqn:Hd;
    [by eapply (Hcase e1), TabRejected|].
  destruct (decide (getAudioTracks disp = [])) as [Hda|Hda];
    [by eapply Hcase, TabNoAudio|].
  destruct (newAudioContext env) as [e1|st0] eqn:Hc;
    [by eapply (Hcase e1), ContextRejected|].
  assert (Hres : (∃ e1, st0 = suspended ∧ resume env = inl e1)
                 ∨ (st0 = suspended → resume env = inr tt)).
  { destruct (decide (st0 = suspended)) as [->|Hs]; [|by right].
    destruct (resume env) as [e1|[]]; [left; by exists e1 | by right]. }
  destruct Hres as [(e1 & -> & Hr)|Hr];
    [by eapply (Hcase e1), ResumeRejected|].
  destruct (createMediaStreamDestination env) as [e1|dest] eqn:Hdest;
    [by eapply (Hcase e1), DestinationFailed|].
  destruct (createGraph env) as [e1|[]] eqn:Hg;
    [by eapply (Hcase e1), GraphFailed|].
  by rewrite (startBody_run snap env mic disp dest st0 w) in Hrun.
Qed.

(** C2, as the code has it.  When the [try] block of a start attempt throws
    (the microphone or tab capture is rejected or comes without audio, the
    mixing context cannot be created or resumed, the destination node or the
    rest of the graph cannot be built), the handler itself returns normally,
    the connection state is Error, the error message is the non-empty text
    computed from the thrown value, the active-track list is empty and every
    microphone and display track handed out during the attempt is stopped. *)
Theorem failed_start_releases_sources
    (snap : AppState) (env : StartEnv) (e : Exn) (w : World) :
  start_fails env e → mic_audio_only env →
  let w' := exec (handleStartMeeting snap env) w in
  handleStartMeeting snap env w = (inr tt, w')
  ∧ connectionState (app w') = ERROR
  ∧ errorMsg (app w') = Some (startErrorMessage e)
  ∧ startErrorMessage e ≠ ""
  ∧ activeTracksRef w' = []
  ∧ all_stopped w' (acquired_sources env).
Proof.
  intros Hf Hmic. unfold exec. rewrite handleStartMeeting_run.
  destruct (startBody_fails snap env e (start_prelude w) Hf eq_refl)
    as (w1 & -> & Hsrc).
  cbv zeta. cbn [snd].
  repeat split; try apply startErrorMessage_nonempty.
  intros t Ht. cbn. destruct (Hsrc Hmic t Ht) as [Hin|Hin].
  - apply elem_of_union; left. apply elem_of_list_to_set.
    apply list_elem_of_fmap. by exists t.
  - by apply elem_of_union; right.
Qed.

Lemma failed_start_releases_sources_witness :
  let w' := exec (handleStartMeeting initialApp envResumeFails) initialWorld in
  connectionState (app w') = ERROR
  ∧ errorMsg (app w') = Some "cannot resume"
  ∧ activeTracksRef w' = []
  ∧ all_stopped w' [micTrack; tabVideo; tabAudio].
Proof.
  assert (Hf : start_fails envResumeFails
                 {| name := "InvalidStateError"; message := "cannot resume" |}).
  { by apply (ResumeRejected envResumeFails micStream1 displayStream1). }
  assert (Hmic : mic_audio_only envResumeFails).
  { intros mic [= <-]. by repeat constructor. }
  destruct (failed_start_releases_sources initialApp envResumeFails _
              initialWorld Hf Hmic) as (_ & Hst & Hmsg & _ & Hact & Hall).
  split; [exact Hst|]. split; [exact Hmsg|]. split; [exact Hact|]. exact Hall.
Defined.

(** C2 as stated fails in three ways.  A context that cannot be resumed is
    left open when the Error state is entered; when the graph fails after the
    destination node exists, the destination's own track stays live; and
    when the SDK's connect call throws, the Error state is entered with no
    message and with every captured track still live and still listed. *)
Lemma failed_start_leaves_resources_open :
  (let w' := exec (handleStartMeeting initialApp envResumeFails) initialWorld in
   connectionState (app w') = ERROR ∧ contexts w' = [suspended])
  ∧ (let w' := exec (handleStartMeeting initialApp envGraphFails) initialWorld in
     connectionState (app w') = ERROR ∧ contexts w' = [running]
     ∧ live w' mixedTrack)
  ∧ (let w' := exec (handleStartMeeting initialApp envConnectFails) initialWorld in
     connectionState (app w') = ERROR ∧ errorMsg (app w') = None
     ∧ activeTracksRef w' = [micTrack; tabVideo; tabAudio]
     ∧ stream (app w') = Some mixedStream1
     ∧ live w' micTrack ∧ live w' tabVideo ∧ live w' tabAudio
     ∧ live w' mixedTrack).
Proof.
  unfold live. repeat split; try reflexivity;
    intros Hin; by vm_compute in Hin.
Qed.

Lemma trace_setConnectionState s w :
  trace (exec (setConnectionState s) w) = trace w.
Proof. reflexivity. Qed.

Lemma trace_setErrorMsg m w :
  trace (exec (setErrorMsg m) w) = trace w ++ [ESetErrorMsg m].
Proof. reflexivity. Qed.

Lemma trace_with_activeTracks f w : trace (with_activeTracks f w) = trace w.
Proof. reflexivity. Qed.

Lemma trace_stopped_by ts w :
  trace (stopped_by ts w) = trace w ++ (EStop ∘ track_id <$> ts).
Proof. reflexivity. Qed.

Lemma tab_audio_message :
  startErrorMessage
    (Error "Tab audio not detected. Please ensure you check the 'Share tab audio' box in the sharing dialog.")
  = "Tab audio not detected. Please ensure you check the 'Share tab audio' box in the sharing dialog.".
Proof. vm_compute. reflexivity. Qed.

(** C3.  When the tab capture comes back without an audio track, the
    handler stops every track of the display stream (the video track), then
    every microphone track already captured, and only then sets the error
    message; it ends in the Error state with that message, with an empty
    active-track list, and both streams' tracks ended. *)
Theorem no_tab_audio_stops_tracks_before_error
    (snap : AppState) (env : StartEnv) (mic disp : MediaStream) (w : World) :
  getUserMedia env = inr mic → getAudioTracks mic ≠ [] →
  getDisplayMedia env = inr disp → getAudioTracks disp = [] →
  let w' := exec (handleStartMeeting snap env) w in
  let msg := "Tab audio not detected. Please ensure you check the 'Share tab audio' box in the sharing dialog." in
  connectionState (app w') = ERROR
  ∧ errorMsg (app w') = Some msg
  ∧ all_stopped w' disp ∧ all_stopped w' mic
  ∧ activeTracksRef w' = []
  ∧ trace w' = trace w
               ++ [ESetErrorMsg None]
               ++ (EStop ∘ track_id <$> activeTracksRef w)
               ++ (EStop ∘ track_id <$> disp)
               ++ (EStop ∘ track_id <$> mic)
               ++ [ESetErrorMsg (Some msg)].
Proof.
  intros Hm Hma Hd Hda. cbv zeta. rewrite <- tab_audio_message.
  unfold exec. rewrite handleStartMeeting_run.
  start_steps. unfold getTracks. cbn [snd].
  split; [reflexivity|]. split; [reflexivity|].
  split; [|split; [|split; [reflexivity|]]].
  - intros t Ht. cbn. apply elem_of_union; right. apply elem_of_union; right.
    apply elem_of_union; left. apply elem_of_list_to_set.
    apply list_elem_of_fmap. by exists t.
  - intros t Ht. cbn. apply elem_of_union; right. apply elem_of_union; left.
    apply elem_of_list_to_set. apply list_elem_of_fmap. by exists t.
  - unfold start_prelude.
    rewrite trace_setConnectionState, !trace_setErrorMsg, !trace_with_activeTracks,
      !trace_stopped_by, !trace_with_activeTracks, !trace_stopped_by,
      !trace_with_activeTracks, !trace_stopped_by, trace_setErrorMsg.
    cbn [fmap list_fmap]. rewrite app_nil_r. by rewrite <- !app_assoc.
Qed.

Lemma no_tab_audio_witness :
  let w' := exec (handleStartMeeting initialApp envNoTabAudio) initialWorld in
  connectionState (app w') = ERROR
  ∧ all_stopped w' [tabVideo] ∧ all_stopped w' micStream1
  ∧ trace w' = [ESetErrorMsg None; EStop 2; EStop 1;
                ESetErrorMsg (Some "Tab audio not detected. Please ensure you check the 'Share tab audio' box in the sharing dialog.")].
Proof.
  destruct (no_tab_audio_stops_tracks_before_error initialApp envNoTabAudio
              micStream1 [tabVideo] initialWorld)
    as (Hst & _ & Hd & Hm & _ & Htr); [reflexivity|done|reflexivity|reflexivity|].
  split; [exact Hst|]. split; [exact Hd|]. split; [exact Hm|]. exact Htr.
Defined.

(** ** Starting successfully *)

Lemma handleStartMeeting_success snap env mic disp dest w :
  start_reaches_connect env mic disp dest →
  ∃ st0,
    handleStartMeeting snap env w =
    (inr tt,
     install_onended snap disp
       (exec (connect (liveConnect env) dest)
          (mixed_world mic disp dest st0 (start_prelude w)))).
Proof.
  intros [Hm Hma Hd Hda (st0 & Hc & Hr) Hdest Hg]. exists st0.
  rewrite handleStartMeeting_run.
  by rewrite (startBody_run snap env mic disp dest st0).
Qed.

Lemma connect_preserves_activeTracks lc dest : preserves activeTracksRef (connect lc dest).
Proof. by frame. Qed.

Lemma connect_preserves_ended lc dest : preserves ended (connect lc dest).
Proof. by frame. Qed.

Lemma connect_preserves_stream lc dest :
  preserves (λ w, stream (app w)) (connect lc dest).
Proof. by frame. Qed.

Lemma install_onended_frame snap disp w :
  app (install_onended snap disp w) = app w
  ∧ activeTracksRef (install_onended snap disp w) = activeTracksRef w
  ∧ ended (install_onended snap disp w) = ended w.
Proof. unfold install_onended. by destruct (getVideoTracks disp). Qed.

(** What a start that reaches [connect] leaves behind. *)
Lemma start_success_state snap env mic disp dest w :
  start_reaches_connect env mic disp dest →
  let w' := exec (handleStartMeeting snap env) w in
  stream (app w') = Some dest
  ∧ activeTracksRef w' = getTracks mic ++ getTracks disp
  ∧ ended w' = list_to_set (track_id <$> activeTracksRef w) ∪ ended w
  ∧ connectionState (app w') = (if liveConnect env is inr _ then CONNECTING else ERROR)
  ∧ (∀ v rest, getVideoTracks disp = v :: rest →
               onended w' !! track_id v = Some snap).
Proof.
  intros Hs. destruct (handleStartMeeting_success snap env mic disp dest w Hs)
    as (st0 & Hrun).
  unfold exec. rewrite Hrun. cbv zeta. cbn [snd].
  destruct (install_onended_frame snap disp
              (exec (connect (liveConnect env) dest)
                 (mixed_world mic disp dest st0 (start_prelude w))))
    as (Ha & Hact & Hend).
  rewrite Ha, Hact, Hend, connect_state.
  rewrite (connect_preserves_stream _ _ _ : stream (app (exec _ _)) = _).
  rewrite (connect_preserves_activeTracks _ _ _ : activeTracksRef (exec _ _) = _).
  rewrite (connect_preserves_ended _ _ _ : ended (exec _ _) = _).
  repeat split.
  intros v rest Hv. unfold install_onended. rewrite Hv. cbn [onended with_onended].
  apply lookup_insert_eq.
Qed.

Lemma envOk_reaches_connect :
  start_reaches_connect envOk micStream1 displayStream1 mixedStream1.
Proof. split; try done. by exists running. Defined.

(** ** Stopping *)

Lemma handleStopMeeting_released snap w :
  released (exec (handleStopMeeting snap) w).
Proof.
  unfold exec. rewrite handleStopMeeting_run. cbn [snd].
  repeat split. cbn. apply disconnect_frame.
Qed.

Lemma handleStopMeeting_when_released w :
  released w →
  handleStopMeeting (app w) w = (inr tt, emit (ENotify DISCONNECTED) w).
Proof.
  intros (Hst & Hstream & Hact & Hp).
  rewrite handleStopMeeting_run, Hstream, Hact. cbn [default].
  rewrite !stopped_by_nil, disconnect_no_session by done.
  destruct w as [[] ? ? ? ? ? ?]; simpl in *; by subst.
Qed.

Lemma stop_calls_emit_notify s w :
  stop_calls (trace (emit (ENotify s) w)) = stop_calls (trace w).
Proof.
  unfold stop_calls. cbn [trace emit]. rewrite omap_app. cbn. apply app_nil_r.
Qed.

Lemma handleStopMeeting_stops snap w :
  let w' := exec (handleStopMeeting snap) w in
  all_stopped w' (activeTracksRef w)
  ∧ all_stopped w' (default [] (stream snap))
  ∧ ended w ⊆ ended w'.
Proof.
  unfold exec. rewrite handleStopMeeting_run. cbn [snd]. cbn.
  destruct (disconnect_frame w) as (_&_&_&_&_&_&->&_).
  split; [|split].
  - intros t Ht. apply elem_of_union; left. apply elem_of_list_to_set.
    apply list_elem_of_fmap. by exists t.
  - intros t Ht. apply elem_of_union; right. apply elem_of_union; left.
    apply elem_of_list_to_set. apply list_elem_of_fmap. by exists t.
  - intros x Hx. apply elem_of_union; right. by apply elem_of_union; right.
Qed.

Lemma step_ClickStop w : step ClickStop w = exec (handleStopMeeting (app w)) w.
Proof. reflexivity. Qed.

Lemma step_ClickStart env w :
  step (ClickStart env) w = exec (handleStartMeeting (app w) env) w.
Proof. reflexivity. Qed.

Lemma run_in_session evs w :
  Forall in_session evs →
  stream (app (run evs w)) = stream (app w)
  ∧ activeTracksRef (run evs w) = activeTracksRef w
  ∧ ended (run evs w) = ended w.
Proof.
  intros Hevs. revert w. induction Hevs as [|ev evs Hev _ IH]; intros w; [done|].
  cbn [run foldl]. fold (run evs (step ev w)).
  destruct (IH (step ev w)) as (-> & -> & ->).
  split; [apply (in_session_preserves_stream ev Hev)|].
  split; [apply (in_session_preserves_activeTracks ev Hev)|].
  apply (in_session_preserves_ended ev Hev).
Qed.

(** The explicit-stop path: after a start that reached [connect] and any
    session traffic, clicking stop ends every captured track and every track
    of the mixed stream. *)
Lemma explicit_stop_releases_everything snap env mic disp dest evs w :
  start_reaches_connect env mic disp dest → Forall in_session evs →
  let w1 := run evs (exec (handleStartMeeting snap env) w) in
  let w2 := step ClickStop w1 in
  connectionState (app w2) = DISCONNECTED
  ∧ all_stopped w2 (mic ++ disp ++ dest)
  ∧ activeTracksRef w2 = [] ∧ stream (app w2) = None.
Proof.
  intros Hs Hevs w1 w2.
  destruct (start_success_state snap env mic disp dest w Hs)
    as (Hstream & Hact & _).
  destruct (run_in_session evs (exec (handleStartMeeting snap env) w) Hevs)
    as (Hstream1 & Hact1 & _).
  fold w1 in Hstream1, Hact1. rewrite Hstream in Hstream1. rewrite Hact in Hact1.
  destruct (handleStopMeeting_released (app w1) w1) as (Hst & Hnone & Hnil & _).
  destruct (handleStopMeeting_stops (app w1) w1) as (Ha & Hm & _).
  rewrite Hact1 in Ha. rewrite Hstream1 in Hm. cbn [default] in Hm.
  unfold w2. rewrite step_ClickStop.
  split; [exact Hst|]. split; [|by split].
  intros t Ht. rewrite app_assoc in Ht. apply elem_of_app in Ht as [Ht|Ht].
  - by apply Ha.
  - by apply Hm.
Qed.

(** A start attempt either throws inside the [try] block or reaches
    [connect]. *)
Lemma start_cases env :
  (∃ e, start_fails env e)
  ∨ (∃ mic disp dest, start_reaches_connect env mic disp dest).
Proof.
  destruct (getUserMedia env) as [e1|mic] eqn:Hm;
    [left; exists e1; by apply MicRejected|].
  destruct (decide (getAudioTracks mic = [])) as [Hma|Hma];
    [left; eexists; by eapply MicNoAudio|].
  destruct (getDisplayMedia env) as [e1|disp] eqn:Hd;
    [left; exists e1; by eapply TabRejected|].
  destruct (decide (getAudioTracks disp = [])) as [Hda|Hda];
    [left; eexists; by eapply TabNoAudio|].
  destruct (newAudioContext env) as [e1|st0] eqn:Hc;
    [left; exists e1; by eapply ContextRejected|].
  assert (Hres : (∃ e1, st0 = suspended ∧ resume env = inl e1)
                 ∨ (st0 = suspended → resume env = inr tt)).
  { destruct (decide (st0 = suspended)) as [->|Hs]; [|by right].
    destruct (resume env) as [e1|[]]; [left; by exists e1 | by right]. }
  destruct Hres as [(e1 & -> & Hr)|Hr];
    [left; exists e1; by eapply ResumeRejected|].
  destruct (createMediaStreamDestination env) as [e1|dest] eqn:Hdest;
    [left; exists e1; by eapply DestinationFailed|].
  destruct (createGraph env) as [e1|[]] eqn:Hg;
    [left; exists e1; by eapply GraphFailed|].
  right. exists mic, disp, dest. split; try done. by exists st0.
Qed.

Lemma connect_preserves_contexts lc dest : preserves contexts (connect lc dest).
Proof. by frame. Qed.

Lemma connect_preserves_input_context lc dest :
  preserves (λ w, inputAudioContext (svc w)) (connect lc dest).
Proof.
  intros w. unfold connect; unfold_setters. by destruct lc as [e|[]].
Qed.

Lemma disconnect_contexts w :
  contexts (exec disconnect w)
  = match sessionPromise (svc w), inputAudioContext (svc w) with
    | Some _, Some c => <[c := closed]> (contexts w)
    | _, _ => contexts w
    end.
Proof.
  unfold exec, disconnect, stopAudioStream; unfold_setters.
  destruct w as [a [p c m s] ? ? ? ? ?]; by destruct p, c, m, s.
Qed.





(** C1, on the input where the code breaks it.  The first session is started
    from the initial render (whose [stream] is null), the service reports the
    session open, and then the tab's video track ends remotely.  The handler
    that runs is the [handleStopMeeting] of the render that started the
    session, so it sees no stream: the state becomes Disconnected and the
    captured tracks are stopped, but the mixed stream's own track is still
    live, and the React state no longer refers to it.  The explicit stop
    from the same connected world does stop it. *)
Theorem remote_end_leaves_mixed_track_live :
  let w1 := run [ClickStart envOk; SessionOpen running mixedStream1] initialWorld in
  let w2 := step (VideoEnded (track_id tabVideo)) w1 in
  (connectionState (app w1) = CONNECTED ∧ stream (app w1) = Some mixedStream1
   ∧ onended w1 !! track_id tabVideo = Some initialApp)
  ∧ (connectionState (app w2) = DISCONNECTED ∧ stream (app w2) = None
     ∧ activeTracksRef w2 = []
     ∧ all_stopped w2 (micStream1 ++ displayStream1)
     ∧ live w2 mixedTrack)
  ∧ all_stopped (step ClickStop w1) (micStream1 ++ displayStream1 ++ mixedStream1).
Proof.
  intros w1 w2. split; [by repeat split|]. split.
  - split; [reflexivity|]. split; [reflexivity|]. split; [reflexivity|].
    split.
    + intros t Ht. apply list_elem_of_In in Ht. simpl in Ht.
      destruct Ht as [<-|[<-|[<-|[]]]]; by vm_compute.
    + intros Hin. by vm_compute in Hin.
  - intros t Ht. apply list_elem_of_In in Ht. simpl in Ht.
    destruct Ht as [<-|[<-|[<-|[<-|[]]]]]; by vm_compute.
Qed.

(** A stop in a world that is Disconnected with nothing held changes no
    state: it repeats the notification and calls [stop()] on the tracks of
    the closure's stream, if it has one. *)
Lemma handleStopMeeting_on_released snap2 w :
  released w →
  let w2 := exec (handleStopMeeting snap2) w in
  handleStopMeeting snap2 w = (inr tt, w2)
  ∧ app w2 = app w ∧ svc w2 = svc w ∧ activeTracksRef w2 = []
  ∧ contexts w2 = contexts w ∧ onended w2 = onended w
  ∧ ended w2 = list_to_set (track_id <$> default [] (stream snap2)) ∪ ended w
  ∧ trace w2 = trace w ++ ENotify DISCONNECTED
                 :: (EStop ∘ track_id <$> default [] (stream snap2)).
Proof.
  intros (Hst & Hstream & Hact & Hp). cbv zeta. unfold exec.
  rewrite handleStopMeeting_run, Hact. cbn [snd].
  rewrite stopped_by_nil, disconnect_no_session by done.
  destruct w as [[] ? ? ? ? ? ?]; simpl in *; subst.
  repeat split. by rewrite <- app_assoc.
Qed.

Lemma handleStopMeeting_null_when_released snap2 w :
  released w → stream snap2 = None →
  handleStopMeeting snap2 w = (inr tt, emit (ENotify DISCONNECTED) w).
Proof.
  intros (Hst & Hstream & Hact & Hp) Hnull.
  rewrite handleStopMeeting_run, Hnull, Hact. cbn [default].
  rewrite !stopped_by_nil, disconnect_no_session by done.
  destruct w as [[] ? ? ? ? ? ?]; simpl in *; by subst.
Qed.

(** The mixing context a start adds, and the service's input context it
    leaves alone. *)
Lemma start_success_contexts snap env mic disp dest w :
  start_reaches_connect env mic disp dest →
  let w' := exec (handleStartMeeting snap env) w in
  ∃ st, contexts w' = contexts w ++ [st]
        ∧ (newAudioContext env ≠ inr closed → st ≠ closed)
        ∧ inputAudioContext (svc w') = inputAudioContext (svc w).
Proof.
  intros [Hm Hma Hd Hda (st0 & Hc & Hr) Hdest Hg]. cbv zeta. unfold exec.
  rewrite handleStartMeeting_run.
  rewrite (startBody_run snap env mic disp dest st0) by done. cbn [snd].
  assert (Hsvc : ∀ w0, svc (install_onended snap disp w0) = svc w0
                       ∧ contexts (install_onended snap disp w0) = contexts w0).
  { intros w0. unfold install_onended. by destruct (getVideoTracks disp). }
  destruct (Hsvc (exec (connect (liveConnect env) dest)
                    (mixed_world mic disp dest st0 (start_prelude w))))
    as (-> & ->).
  rewrite (connect_preserves_contexts _ _ _ : contexts (exec _ _) = _).
  rewrite (connect_preserves_input_context _ _ _
             : inputAudioContext (svc (exec _ _)) = _).
  exists (if decide (st0 = suspended) then running else st0).
  split; [reflexivity|]. split; [|reflexivity].
  intros Hopen. case_decide; [done|]. intros ->. by apply Hopen.
Qed.

(** C6, as the code has it.  A stop never throws and always leaves the
    state Disconnected with nothing held, having stopped the tracks on the
    active list and those of its closure's stream; so in a world that is
    Disconnected but still holds tracks it does release them.  A further
    stop, by whatever closure, changes no state: it repeats the Disconnected
    notification and calls [stop()] on the tracks of that closure's stream,
    so a stop from the render then on screen, whose stream is null, calls no
    [stop()] at all, while the closure that ran the first stop calls
    [stop()] once more on its stream's tracks, all of them ended already.
    The same holds in every world that is Disconnected with nothing held.  A
    stop clicked mid-connect, right after a start that reached [connect],
    ends every captured track and every track of the mixed stream; the
    mixing context that the start created keeps its state and is not
    closed. *)
Theorem stop_is_idempotent (snap : AppState) (w : World) :
  let w1 := exec (handleStopMeeting snap) w in
  (handleStopMeeting snap w = (inr tt, w1) ∧ released w1
   ∧ all_stopped w1 (activeTracksRef w)
   ∧ all_stopped w1 (default [] (stream snap)))
  ∧ (∀ snap2,
       let w2 := exec (handleStopMeeting snap2) w1 in
       handleStopMeeting snap2 w1 = (inr tt, w2)
       ∧ app w2 = app w1 ∧ svc w2 = svc w1 ∧ activeTracksRef w2 = []
       ∧ contexts w2 = contexts w1 ∧ onended w2 = onended w1
       ∧ ended w2 = list_to_set (track_id <$> default [] (stream snap2)) ∪ ended w1
       ∧ trace w2 = trace w1 ++ ENotify DISCONNECTED
                      :: (EStop ∘ track_id <$> default [] (stream snap2)))
  ∧ ended (exec (handleStopMeeting snap) w1) = ended w1
  ∧ (handleStopMeeting (app w1) w1 = (inr tt, emit (ENotify DISCONNECTED) w1)
     ∧ step ClickStop w1 = emit (ENotify DISCONNECTED) w1
     ∧ stop_calls (trace (step ClickStop w1)) = stop_calls (trace w1))
  ∧ (released w →
     handleStopMeeting (app w) w = (inr tt, emit (ENotify DISCONNECTED) w)
     ∧ ∀ snap2, stream snap2 = None →
         handleStopMeeting snap2 w = (inr tt, emit (ENotify DISCONNECTED) w))
  ∧ (∀ env mic disp dest,
       start_reaches_connect env mic disp dest →
       let wc := step (ClickStart env) w in
       let w2 := step ClickStop wc in
       connectionState (app w2) = DISCONNECTED
       ∧ all_stopped w2 (mic ++ disp ++ dest)
       ∧ activeTracksRef w2 = [] ∧ stream (app w2) = None
       ∧ ∃ st, contexts wc = contexts w ++ [st]
               ∧ (newAudioContext env ≠ inr closed → st ≠ closed)
               ∧ ((∀ c, inputAudioContext (svc w) = Some c →
                        (c < length (contexts w))%nat) →
                  contexts w2 !! length (contexts w) = Some st)).
Proof.
  intros w1.
  pose proof (handleStopMeeting_released snap w) as Hrel. fold w1 in Hrel.
  pose proof (handleStopMeeting_when_released w1 Hrel) as Hagain.
  destruct (handleStopMeeting_stops snap w) as (Hact & Hmix & _).
  fold w1 in Hact, Hmix.
  assert (Hstep : step ClickStop w1 = emit (ENotify DISCONNECTED) w1).
  { rewrite step_ClickStop. unfold exec. by rewrite Hagain. }
  split; [split; [unfold w1, exec; by rewrite handleStopMeeting_run | by split]|].
  split; [intros snap2; apply (handleStopMeeting_on_released snap2 w1 Hrel)|].
  split.
  { destruct (handleStopMeeting_on_released snap w1 Hrel)
      as (_ & _ & _ & _ & _ & _ & -> & _).
    apply subseteq_union_1_L. intros x Hx.
    apply elem_of_list_to_set, list_elem_of_fmap in Hx as (t & -> & Ht).
    by apply Hmix. }
  split; [split; [exact Hagain | split; [exact Hstep|]]|].
  { rewrite Hstep. apply stop_calls_emit_notify. }
  split.
  { intros Hw. split; [by apply handleStopMeeting_when_released|].
    intros snap2. by apply handleStopMeeting_null_when_released. }
  intros env mic disp dest Hs. rewrite step_ClickStart.
  set (wc := exec (handleStartMeeting (app w) env) w).
  destruct (explicit_stop_releases_everything (app w) env mic disp dest [] w Hs
              (List.Forall_nil _)) as (Hst & Hall & Hnil & Hnone).
  fold wc in Hst, Hall, Hnil, Hnone. cbn [run foldl] in Hst, Hall, Hnil, Hnone.
  do 4 (split; [done|]).
  destruct (start_success_contexts (app w) env mic disp dest w Hs)
    as (st & Hctx & Hopen & Hin).
  fold wc in Hctx, Hin. exists st. split; [exact Hctx|]. split; [exact Hopen|].
  intros Hwf. rewrite step_ClickStop.
  assert (Hc : contexts (exec (handleStopMeeting (app wc)) wc)
               = contexts (exec disconnect wc)).
  { unfold exec. by rewrite handleStopMeeting_run. }
  rewrite Hc, disconnect_contexts, Hin.
  destruct (sessionPromise (svc wc)), (inputAudioContext (svc w)) as [c|] eqn:Hic;
    rewrite ?Hctx; try apply lookup_new_context.
  rewrite list_lookup_insert_ne; [apply lookup_new_context|].
  specialize (Hwf c eq_refl). lia.
Qed.

Lemma stop_is_idempotent_witness :
  let w0 := step (ClickStart envOk) initialWorld in
  let w1 := exec (handleStopMeeting (app w0)) w0 in
  released w1
  ∧ step ClickStop w1 = emit (ENotify DISCONNECTED) w1
  ∧ all_stopped (step ClickStop w0) (micStream1 ++ displayStream1 ++ mixedStream1)
  ∧ contexts (step ClickStop w0) !! 0 = Some running
  ∧ released initialWorld
  ∧ handleStopMeeting initialApp initialWorld
    = (inr tt, emit (ENotify DISCONNECTED) initialWorld).
Proof.
  intros w0 w1.
  destruct (stop_is_idempotent (app w0) w0)
    as ((_ & Hrel & _) & _ & _ & (_ & Hstep & _) & _ & _).
  destruct (stop_is_idempotent initialApp initialWorld)
    as (_ & _ & _ & _ & Hinit & Hmid).
  destruct (Hmid envOk micStream1 displayStream1 mixedStream1
              envOk_reaches_connect) as (_ & Hall & _ & _ & st & Hctx & _ & Hkeep).
  specialize (Hkeep ltac:(by intros c [=])).
  assert (Hr0 : released initialWorld) by (by repeat split).
  split; [exact Hrel|]. split; [exact Hstep|]. split; [exact Hall|].
  split.
  { change (contexts (step ClickStop w0) !! 0 = Some running).
    assert (Hst : st = running).
    { assert (H0 : contexts w0 = [running]) by (by vm_compute).
      unfold w0 in H0. rewrite H0 in Hctx. by injection Hctx as <-. }
    rewrite <- Hst. exact Hkeep. }
  split; [exact Hr0 | exact (proj1 (Hinit Hr0))].
Defined.

(** C6 as stated fails in three ways.  The closure that ran a stop, run
    again, calls [stop()] a second time on the mixed stream's track.  After
    the session has closed, the state is Disconnected while the tracks are
    still held, and a stop there is not a no-op: it stops them.  And a stop
    mid-connect leaves the mixing context running. *)
Lemma stop_not_always_a_noop :
  (let w0 := run [ClickStart envOk; SessionOpen running mixedStream1]
               initialWorld in
   let w1 := exec (handleStopMeeting (app w0)) w0 in
   let w2 := exec (handleStopMeeting (app w0)) w1 in
   connectionState (app w1) = DISCONNECTED
   ∧ stop_calls (trace w1) = [4; 1; 2; 3]
   ∧ stop_calls (trace w2) = [4; 1; 2; 3; 4])
  ∧ (let w := run [ClickStart envOk; SessionOpen running mixedStream1;
                   SessionClose] initialWorld in
     connectionState (app w) = DISCONNECTED
     ∧ stop_calls (trace w) = []
     ∧ stop_calls (trace (step ClickStop w)) = [4; 1; 2; 3])
  ∧ (let w := run [ClickStart envOk; ClickStop] initialWorld in
     connectionState (app w) = DISCONNECTED
     ∧ contexts w = [running]).
Proof. repeat split; by vm_compute. Qed.

(** * Further properties of the service and of [App] *)

(** ** The service on its own *)

Lemma connect_frame lc mixed w :
  let w' := exec (connect lc mixed) w in
  activeTracksRef w' = activeTracksRef w ∧ ended w' = ended w
  ∧ contexts w' = contexts w ∧ onended w' = onended w
  ∧ stream (app w') = stream (app w) ∧ errorMsg (app w') = errorMsg (app w)
  ∧ transcripts (app w') = transcripts (app w)
  ∧ inputAudioContext (svc w') = inputAudioContext (svc w).
Proof.
  unfold exec, connect; unfold_setters. destruct lc as [e|[]]; by repeat split.
Qed.

(** X1.  [connect] never throws and always announces Connecting first.  When
    the SDK call returns, the session promise is the new session and the
    state stays Connecting; when it throws, Error is announced next and the
    session promise keeps whatever it held before.  Tracks, audio contexts,
    the mixed stream, the error message and the transcript are untouched. *)
Theorem connect_outcomes (lc : Exn + unit) (mixed : MediaStream) (w : World) :
  let w' := exec (connect lc mixed) w in
  connect lc mixed w = (inr tt, w')
  ∧ match lc with
    | inr _ =>
        trace w' = trace w ++ [ENotify CONNECTING]
        ∧ connectionState (app w') = CONNECTING
        ∧ sessionPromise (svc w') = Some mixed
    | inl _ =>
        trace w' = trace w ++ [ENotify CONNECTING; ENotify ERROR]
        ∧ connectionState (app w') = ERROR
        ∧ sessionPromise (svc w') = sessionPromise (svc w)
    end
  ∧ activeTracksRef w' = activeTracksRef w ∧ ended w' = ended w
  ∧ contexts w' = contexts w ∧ stream (app w') = stream (app w)
  ∧ errorMsg (app w') = errorMsg (app w)
  ∧ transcripts (app w') = transcripts (app w).
Proof.
  cbv zeta. split; [apply connect_run|]. split.
  - unfold exec, connect, onStateChange; unfold_setters.
    destruct lc as [e|[]]; mrun; cbn.
    + by rewrite <- app_assoc.
    + done.
  - destruct (connect_frame lc mixed w) as (?&?&?&?&?&?&?&?). by repeat split.
Qed.

Lemma stopAudioStream_run w :
  stopAudioStream w = (inr tt, exec stopAudioStream w).
Proof.
  unfold exec. pose proof (stopAudioStream_ok w) as H.
  destruct (stopAudioStream w) as [r w']; simpl in *; by subst.
Qed.

Lemma stopAudioStream_effect w :
  let w' := exec stopAudioStream w in
  mediaStreamSource (svc w') = None ∧ scriptProcessor (svc w') = None
  ∧ inputAudioContext (svc w') = None
  ∧ sessionPromise (svc w') = sessionPromise (svc w)
  ∧ contexts w' = match inputAudioContext (svc w) with
                  | Some c => <[c := closed]> (contexts w)
                  | None => contexts w
                  end
  ∧ app w' = app w ∧ activeTracksRef w' = activeTracksRef w
  ∧ ended w' = ended w ∧ trace w' = trace w.
Proof.
  unfold exec, stopAudioStream; unfold_setters.
  destruct w as [a [p c m s] ? ? ? ? ?]; destruct c, m, s; by repeat split.
Qed.

(** X2.  [stopAudioStream] drops the source node, the processor and the
    input context, closes that context and no other, leaves the session
    promise, the React state, the tracks and the trace alone, and is
    idempotent: a second call returns the same world. *)
Theorem stopAudioStream_idempotent (w : World) :
  let w' := exec stopAudioStream w in
  stopAudioStream w = (inr tt, w')
  ∧ mediaStreamSource (svc w') = None ∧ scriptProcessor (svc w') = None
  ∧ inputAudioContext (svc w') = None
  ∧ sessionPromise (svc w') = sessionPromise (svc w)
  ∧ contexts w' = match inputAudioContext (svc w) with
                  | Some c => <[c := closed]> (contexts w)
                  | None => contexts w
                  end
  ∧ app w' = app w ∧ activeTracksRef w' = activeTracksRef w
  ∧ ended w' = ended w
  ∧ stopAudioStream w' = (inr tt, w').
Proof.
  cbv zeta. split; [apply stopAudioStream_run|].
  destruct (stopAudioStream_effect w) as (Hm & Hs & Hc & Hp & Hcs & Ha & Hact & He & _).
  do 8 (split; [done|]).
  unfold stopAudioStream at 1. unfold_setters. mrun.
  rewrite Hm. mrun. rewrite Hs. mrun. rewrite Hc. reflexivity.
Qed.

Lemma startAudioStream_run st0 mixed w :
  startAudioStream st0 mixed w =
  (inr tt,
   with_svc (λ s, {| sessionPromise := sessionPromise s;
                     inputAudioContext := Some (length (contexts w));
                     mediaStreamSource := Some mixed;
                     scriptProcessor := Some 4096 |})
     (with_contexts (λ cs, cs ++ [st0]) w)).
Proof. reflexivity. Qed.

(** X3.  [stopAudioStream] closes the context that the latest
    [startAudioStream] created, and only that one.  After one start the new
    context is closed and every older context keeps its state; after two
    starts in a row the first of the two contexts is left in the state it
    was created in, with nothing referring to it any more. *)
Theorem stop_closes_latest_context_only
    (st1 st2 : AudioContextState) (m1 m2 : MediaStream) (w : World) :
  (let w' := exec (startAudioStream st1 m1 ;; stopAudioStream) w in
   contexts w' = contexts w ++ [closed] ∧ inputAudioContext (svc w') = None)
  ∧ (let w' := exec (startAudioStream st1 m1 ;; startAudioStream st2 m2 ;;
                     stopAudioStream) w in
     contexts w' = contexts w ++ [st1; closed]
     ∧ inputAudioContext (svc w') = None
     ∧ mediaStreamSource (svc w') = None).
Proof.
  split; cbv zeta; unfold exec.
  - rewrite bind_run, startAudioStream_run. cbv beta iota.
    rewrite stopAudioStream_run. cbn [snd].
    match goal with |- context [exec stopAudioStream ?W0] => set (W := W0) end.
    destruct (stopAudioStream_effect W) as (_ & _ & Hc & _ & Hcs & _).
    rewrite Hcs, Hc. subst W. cbn. by rewrite resumed_context.
  - rewrite bind_run, startAudioStream_run. cbv beta iota.
    rewrite bind_run, startAudioStream_run. cbv beta iota.
    rewrite stopAudioStream_run. cbn [snd].
    match goal with |- context [exec stopAudioStream ?W0] => set (W := W0) end.
    destruct (stopAudioStream_effect W) as (Hm & _ & Hc & _ & Hcs & _).
    rewrite Hcs, Hc, Hm. subst W. cbn. rewrite length_app. cbn.
    replace (length (contexts w) + 1) with (length (contexts w ++ [st1]))
      by (rewrite length_app; done).
    rewrite resumed_context. by rewrite <- app_assoc.
Qed.

(** X4.  When the session closes or fails, the service announces
    Disconnected (on close) or Error (on error) and stops its audio stream,
    and that is all: no error message is set, no captured track is stopped
    or forgotten, the mixed stream stays in the React state, and the session
    promise stays set. *)
Theorem session_end_releases_nothing (w : World) :
  (let w' := exec onclose w in
   onclose w = (inr tt, w')
   ∧ connectionState (app w') = DISCONNECTED
   ∧ trace w' = trace w ++ [ENotify DISCONNECTED]
   ∧ inputAudioContext (svc w') = None
   ∧ errorMsg (app w') = errorMsg (app w) ∧ stream (app w') = stream (app w)
   ∧ activeTracksRef w' = activeTracksRef w ∧ ended w' = ended w
   ∧ sessionPromise (svc w') = sessionPromise (svc w))
  ∧ (let w' := exec onerror w in
     onerror w = (inr tt, w')
     ∧ connectionState (app w') = ERROR
     ∧ trace w' = trace w ++ [ENotify ERROR]
     ∧ inputAudioContext (svc w') = None
     ∧ errorMsg (app w') = errorMsg (app w) ∧ stream (app w') = stream (app w)
     ∧ activeTracksRef w' = activeTracksRef w ∧ ended w' = ended w
     ∧ sessionPromise (svc w') = sessionPromise (svc w)).
Proof.
  split; cbv zeta; unfold exec, onclose, onerror, stopAudioStream; unfold_setters;
    destruct w as [a [p c m s] ? ? ? ? ?]; destruct c, m, s; by repeat split.
Qed.

(** ** Stops, late callbacks and unmount *)

Lemma onopen_run st0 mixed w :
  onopen st0 mixed w =
  (inr tt,
   with_svc (λ s, {| sessionPromise := sessionPromise s;
                     inputAudioContext := Some (length (contexts w));
                     mediaStreamSource := Some mixed;
                     scriptProcessor := Some 4096 |})
     (with_contexts (λ cs, cs ++ [st0])
        (exec (setConnectionState CONNECTED) (emit (ENotify CONNECTED) w)))).
Proof. reflexivity. Qed.

(** X5.  An [onopen] that arrives when the service holds no session promise
    (after a stop, say) still sets Connected and builds the audio graph, and
    a stop after that does not take the graph down: [disconnect] skips
    [stopAudioStream] without a session promise, so the context that
    [onopen] created is left as it was created and the service still holds
    it, while the state says Disconnected. *)
Theorem late_onopen_context_survives_stop
    (st0 : AudioContextState) (mixed : MediaStream) (snap : AppState) (w : World) :
  sessionPromise (svc w) = None →
  let w1 := exec (onopen st0 mixed) w in
  let w2 := exec (handleStopMeeting snap) w1 in
  connectionState (app w1) = CONNECTED
  ∧ connectionState (app w2) = DISCONNECTED
  ∧ contexts w2 = contexts w ++ [st0]
  ∧ inputAudioContext (svc w2) = Some (length (contexts w))
  ∧ mediaStreamSource (svc w2) = Some mixed.
Proof.
  intros Hp w1 w2.
  assert (Hp1 : sessionPromise (svc w1) = None) by exact Hp.
  split; [reflexivity|].
  unfold w2, exec. rewrite handleStopMeeting_run. cbn [snd].
  rewrite (disconnect_no_session w1 Hp1).
  by repeat split.
Qed.

Lemma late_onopen_witness :
  let w0 := run [ClickStart envOk; ClickStop] initialWorld in
  let w1 := exec (onopen running mixedStream1) w0 in
  let w2 := exec (handleStopMeeting (app w1)) w1 in
  sessionPromise (svc w0) = None
  ∧ connectionState (app w2) = DISCONNECTED
  ∧ contexts w2 = contexts w0 ++ [running]
  ∧ inputAudioContext (svc w2) = Some (length (contexts w0)).
Proof.
  intros w0 w1 w2.
  assert (Hp : sessionPromise (svc w0) = None) by (by vm_compute).
  destruct (late_onopen_context_survives_stop running mixedStream1 (app w1) w0 Hp)
    as (_ & Hst & Hctx & Hin & _).
  split; [exact Hp|]. split; [exact Hst|]. split; [exact Hctx | exact Hin].
Defined.

(** X6.  When the Suggest button is enabled (Connected and not generating),
    a click turns the generating indicator on, empties the suggestion slot
    and, if the service holds a session promise, hands it the one fixed
    prompt; nothing else changes, and the button is disabled afterwards. *)
Theorem enabled_suggest_click (w : World) :
  suggestDisabled (app w) = false →
  let w' := step ClickGenerate w in
  isGenerating (app w') = true
  ∧ currentSuggestion (app w') = None
  ∧ suggestDisabled (app w') = true
  ∧ connectionState (app w') = CONNECTED
  ∧ transcripts (app w') = transcripts (app w)
  ∧ trace w' = trace w ++
      (if sessionPromise (svc w) is Some _
       then [ESend "Based on the conversation, suggest a response now."]
       else [])
  ∧ svc w' = svc w ∧ activeTracksRef w' = activeTracksRef w
  ∧ ended w' = ended w.
Proof.
  unfold suggestDisabled. intros Hen.
  apply orb_false_iff in Hen as [Hc Hg].
  apply bool_decide_eq_false in Hc. apply dec_stable in Hc.
  cbv zeta. unfold step, exec, handle. rewrite bind_run, gets_run.
  cbv beta iota. unfold handleGenerateResponse.
  rewrite decide_False by (intros Hne; by apply Hne).
  unfold requestSuggestion; unfold_setters. mrun. cbn [with_app svc].
  destruct (sessionPromise (svc w)); mrun; cbn; rewrite ?app_nil_r;
    repeat split; try done; by rewrite Hc.
Qed.

Lemma enabled_suggest_click_witness :
  let w := run [ClickStart envOk; SessionOpen running mixedStream1] initialWorld in
  let w' := step ClickGenerate w in
  suggestDisabled (app w) = false
  ∧ isGenerating (app w') = true
  ∧ suggestDisabled (app w') = true
  ∧ trace w' = trace w ++ [ESend "Based on the conversation, suggest a response now."].
Proof.
  intros w w'.
  assert (Hen : suggestDisabled (app w) = false) by (by vm_compute).
  destruct (enabled_suggest_click w Hen) as (Hg & _ & Hd & _ & _ & Htr & _).
  split; [exact Hen|]. split; [exact Hg|]. split; [exact Hd|].
  unfold w'. rewrite Htr. by vm_compute.
Defined.

Lemma forEach_user_items_preserve_generating items :
  Forall (λ it, isUser it = true) items →
  preserves (λ w, isGenerating (app w)) (forEach onTranscriptionUpdate items).
Proof.
  intros Hall. induction Hall as [|it items Hit _ IH]; [apply preserves_ret|].
  cbn [forEach]. apply preserves_bind; [|by intros _].
  intros w. change ((onTranscriptionUpdate it w).2) with (exec (onTranscriptionUpdate it) w).
  by rewrite onTranscriptionUpdate_generating, Hit.
Qed.

Lemma handle_preserves_generating ev :
  ev ≠ ClickGenerate → (∀ m c1 c2, ev ≠ SessionMessage m c1 c2) →
  preserves (λ w, isGenerating (app w)) (handle ev).
Proof.
  intros Hgen Hmsg.
  destruct ev as [env| | | |t|st0 mixed|m c1 c2| |]; unfold handle;
    try (by frame).
  by destruct (Hmsg m c1 c2).
Qed.

(** X7.  Only an output-side transcription item turns the generating
    indicator off.  Once it is on, every other event (a start, a stop, a
    remote track end, a dismissal, another suggestion click, the session
    opening, closing or failing, a message without output text) leaves it
    on, and with it the Suggest button disabled. *)
Theorem generating_cleared_only_by_output (ev : Event) (w : World) :
  isGenerating (app w) = true →
  (∀ m c1 c2, ev = SessionMessage m c1 c2 → outputText m = None) →
  isGenerating (app (step ev w)) = true
  ∧ suggestDisabled (app (step ev w)) = true.
Proof.
  intros Hg Hev.
  assert (Hkeep : isGenerating (app (step ev w)) = true).
  { destruct ev as [env| | | |t|st0 mixed|m c1 c2| |];
      try (rewrite <- Hg; by apply handle_preserves_generating).
    { unfold step, exec, handle. rewrite bind_run, gets_run. cbv beta iota.
      unfold handleGenerateResponse.
      case_decide; [done|]. unfold requestSuggestion; unfold_setters. mrun.
      by destruct (sessionPromise _). }
    unfold step, exec, handle. rewrite handleMessage_items, <- Hg.
    apply forEach_user_items_preserve_generating.
    unfold items_of_message. rewrite (Hev m c1 c2 eq_refl).
    destruct (inputText m); by repeat constructor. }
  split; [exact Hkeep|]. unfold suggestDisabled. rewrite Hkeep. apply orb_true_r.
Qed.

Lemma generating_cleared_only_by_output_witness :
  let w := run [ClickStart envOk; SessionOpen running mixedStream1; ClickGenerate]
             initialWorld in
  isGenerating (app w) = true
  ∧ isGenerating (app (step ClickStop w)) = true
  ∧ suggestDisabled (app (step ClickStop w)) = true.
Proof.
  intros w.
  assert (Hg : isGenerating (app w) = true) by (by vm_compute).
  destruct (generating_cleared_only_by_output ClickStop w Hg) as (H1 & H2);
    [by intros m c1 c2 [=]|].
  split; [exact Hg|]. split; [exact H1 | exact H2].
Defined.

(** X8.  The unmount cleanup disconnects the service and stops the captured
    source tracks: it returns normally, every track on the active list is
    ended, the list is empty, no session promise is left and Disconnected
    was announced.  It does nothing about the mixed stream: the React state
    still holds it and its tracks are ended only if they were on the active
    list or ended already. *)
Theorem unmount_releases_sources (w : World) :
  let w' := exec unmount w in
  unmount w = (inr tt, w')
  ∧ all_stopped w' (activeTracksRef w)
  ∧ activeTracksRef w' = []
  ∧ sessionPromise (svc w') = None
  ∧ connectionState (app w') = DISCONNECTED
  ∧ stream (app w') = stream (app w)
  ∧ ended w' = list_to_set (track_id <$> activeTracksRef w) ∪ ended w
  ∧ trace w' = trace w ++ ENotify DISCONNECTED
                 :: (EStop ∘ track_id <$> activeTracksRef w).
Proof.
  cbv zeta. unfold exec, unmount.
  rewrite bind_run, disconnect_run. cbv beta iota. rewrite cleanupTracks_run.
  cbn [snd]. cbn.
  destruct (disconnect_frame w) as (Hs & _ & _ & _ & _ & Hact & He & _ & Hp).
  rewrite Hact, He, disconnect_trace, disconnect_state, Hp, Hs.
  split; [reflexivity|]. split.
  - intros t Ht. apply elem_of_union; left. apply elem_of_list_to_set.
    apply list_elem_of_fmap. by exists t.
  - repeat split. by rewrite <- app_assoc.
Qed.

(** X9.  [cleanupTracks] calls [stop()] once on each listed track, in list
    order, and empties the list, so a second call in a row stops nothing
    and changes nothing (as in the no-tab-audio path, where the handler's
    [catch] block calls it again). *)
Theorem cleanupTracks_twice (w : World) :
  let w' := exec cleanupTracks w in
  cleanupTracks w = (inr tt, w')
  ∧ trace w' = trace w ++ (EStop ∘ track_id <$> activeTracksRef w)
  ∧ all_stopped w' (activeTracksRef w)
  ∧ activeTracksRef w' = []
  ∧ cleanupTracks w' = (inr tt, w').
Proof.
  cbv zeta. unfold exec. rewrite !cleanupTracks_run. cbn [snd].
  split; [reflexivity|]. split; [reflexivity|]. split.
  - intros t Ht. cbn. apply elem_of_union; left. apply elem_of_list_to_set.
    apply list_elem_of_fmap. by exists t.
  - split; [reflexivity|]. cbn [activeTracksRef with_activeTracks].
    by rewrite stopped_by_nil.
Qed.

(** X10.  A server message that carries both an input and an output text
    logs two items, the input-side one first, puts the output-side one in
    the suggestion slot and turns the generating indicator off; both items
    carry the message's turn-complete flag (false when it is absent). *)
Theorem message_with_both_texts
    (m : LiveServerMessage) (c1 c2 : Clock) (a b : string) (w : World) :
  inputText m = Some a → outputText m = Some b →
  let w' := step (SessionMessage m c1 c2) w in
  let done := to_bool (serverContent m ≫= turnComplete) in
  let itemIn := {| item_id := fresh_id c1; timestamp := now c1; text := a;
                   isUser := true; isComplete := done |} in
  let itemOut := {| item_id := fresh_id c2; timestamp := now c2; text := b;
                    isUser := false; isComplete := done |} in
  transcripts (app w') = transcripts (app w) ++ [itemIn; itemOut]
  ∧ currentSuggestion (app w') = Some itemOut
  ∧ isGenerating (app w') = false
  ∧ connectionState (app w') = connectionState (app w).
Proof.
  intros Ha Hb. cbv zeta. unfold step, exec, handle.
  rewrite handleMessage_items. unfold items_of_message. rewrite Ha, Hb.
  cbn [List.app forEach]. unfold onTranscriptionUpdate; unfold_setters.
  cbn [isUser negb]. mrun. cbn. by rewrite <- app_assoc.
Qed.

Lemma message_with_both_texts_witness :
  let m := {| serverContent := Some
                {| inputTranscription := Some {| transcription_text := Some "hello" |};
                   outputTranscription := Some {| transcription_text := Some "hi" |};
                   turnComplete := None |} |} in
  let w' := step (SessionMessage m (clk 1) (clk 2)) initialWorld in
  text <$> transcripts (app w') = ["hello"; "hi"]
  ∧ isComplete <$> transcripts (app w') = [false; false]
  ∧ text <$> currentSuggestion (app w') = Some "hi".
Proof.
  intros m w'.
  destruct (message_with_both_texts m (clk 1) (clk 2) "hello" "hi" initialWorld)
    as (Ht & Hs & _); [reflexivity|reflexivity|].
  unfold w'. rewrite Ht, Hs. by repeat split.
Defined.

(** ** Start attempts as a whole *)

Lemma failed_start_state snap env e w :
  start_fails env e →
  let w' := exec (handleStartMeeting snap env) w in
  handleStartMeeting snap env w = (inr tt, w')
  ∧ connectionState (app w') = ERROR
  ∧ errorMsg (app w') = Some (startErrorMessage e)
  ∧ activeTracksRef w' = [].
Proof.
  intros Hf. cbv zeta. unfold exec. rewrite handleStartMeeting_run.
  destruct (startBody_fails snap env e (start_prelude w) Hf eq_refl)
    as (w1 & -> & _).
  by repeat split.
Qed.

Lemma connect_preserves_errorMsg lc dest :
  preserves (λ w, errorMsg (app w)) (connect lc dest).
Proof. by frame. Qed.

Lemma started_state snap env mic disp dest w :
  start_reaches_connect env mic disp dest →
  let w' := exec (handleStartMeeting snap env) w in
  handleStartMeeting snap env w = (inr tt, w')
  ∧ errorMsg (app w') = None
  ∧ connectionState (app w')
    = (if liveConnect env is inr _ then CONNECTING else ERROR).
Proof.
  intros Hs.
  destruct (start_success_state snap env mic disp dest w Hs) as (_ & _ & _ & Hst & _).
  destruct (handleStartMeeting_success snap env mic disp dest w Hs) as (st0 & Hrun).
  cbv zeta. split; [unfold exec; by rewrite Hrun|]. split; [|exact Hst].
  unfold exec. rewrite Hrun. cbn [snd].
  destruct (install_onended_frame snap disp
              (exec (connect (liveConnect env) dest)
                 (mixed_world mic disp dest st0 (start_prelude w)))) as (-> & _).
  by rewrite (connect_preserves_errorMsg _ _ _ : errorMsg (app (exec _ _)) = _).
Qed.


(** *** What a start does first *)

Section Grows.
Context {A : Type}.

Lemma grows_ret (a : A) : grows (mret a : M A).
Proof. intros w. split; [done|]. exists []. by rewrite app_nil_r. Qed.

Lemma grows_throw e : grows (@throw A e).
Proof. intros w. split; [done|]. exists []. by rewrite app_nil_r. Qed.

Lemma grows_await (o : Exn + A) : grows (await o).
Proof. intros w. split; [done|]. exists []. by rewrite app_nil_r. Qed.

Lemma grows_gets (g : World → A) : grows (gets g).
Proof. intros w. split; [done|]. exists []. by rewrite app_nil_r. Qed.

Lemma grows_bind {C} (m : M A) (k : A → M C) :
  grows m → (∀ a, grows (k a)) → grows (m ≫= k).
Proof.
  intros Hm Hk w. rewrite bind_run. destruct (Hm w) as (He & rest & Ht).
  destruct (m w) as [[e|a] w']; simpl in *; [by eauto|].
  destruct (Hk a w') as (He' & rest' & Ht'). split; [by etrans|].
  exists (rest ++ rest'). by rewrite Ht', Ht, <- app_assoc.
Qed.

Lemma grows_try_catch (body : M A) handler :
  grows body → (∀ e, grows (handler e)) → grows (try_catch body handler).
Proof.
  intros Hm Hk w. rewrite try_catch_run. destruct (Hm w) as (He & rest & Ht).
  destruct (body w) as [[e|a] w']; simpl in *; [|by eauto].
  destruct (Hk e w') as (He' & rest' & Ht'). split; [by etrans|].
  exists (rest ++ rest'). by rewrite Ht', Ht, <- app_assoc.
Qed.
End Grows.

Lemma grows_modify f :
  (∀ w, ended w ⊆ ended (f w)) → (∀ w, ∃ rest, trace (f w) = trace w ++ rest) →
  grows (modify f).
Proof. intros He Ht w. split; [apply He | apply Ht]. Qed.

Lemma grows_forEach {B} (g : B → M unit) xs :
  (∀ x, grows (g x)) → grows (forEach g xs).
Proof.
  intros Hg. induction xs as [|x xs IH]; [apply grows_ret|].
  apply grows_bind; [apply Hg | by intros _].
Qed.

Ltac grows_modify_tac :=
  apply grows_modify;
  [ intros ?; cbn; first [ reflexivity | apply union_subseteq_r ]
  | intros ?; cbn; first [ by eexists | exists []; by rewrite app_nil_r ] ].

Ltac grows_tac :=
  unfold handleStartMeeting, startBody, handleStopMeeting, connect,
    disconnect, stopAudioStream, cleanupTracks, new_AudioContext, track_stop;
  unfold onStateChange; unfold_setters; cbv zeta;
  repeat first
    [ apply grows_ret | apply grows_throw | apply grows_await
    | apply grows_gets | grows_modify_tac
    | apply grows_bind; [| intros ?]
    | apply grows_try_catch; [| intros ?]
    | apply grows_forEach; intros ?
    | case_match | case_decide ].

Lemma start_try_grows snap env :
  grows (try_catch (startBody snap env)
           (λ err, cleanupTracks ;;
                   setErrorMsg (Some (startErrorMessage err)) ;;
                   setConnectionState ERROR)).
Proof. by grows_tac. Qed.

Lemma handleStartMeeting_after_prelude snap env w :
  handleStartMeeting snap env w =
  try_catch (startBody snap env)
    (λ err, cleanupTracks ;;
            setErrorMsg (Some (startErrorMessage err)) ;;
            setConnectionState ERROR)
    (start_prelude w).
Proof.
  unfold handleStartMeeting, start_prelude. rewrite bind_run.
  change (setErrorMsg None w) with (inr tt : Exn + unit, exec (setErrorMsg None) w).
  cbv beta iota. by rewrite bind_run, cleanupTracks_run.
Qed.

(** X12.  Whatever the platform answers, a start first clears the error
    message and then stops every track left on the active list by an earlier
    attempt, before anything is captured: those two steps open the handler's
    trace, the old tracks are ended when it returns, and no track that was
    ended before comes back. *)
Theorem start_clears_error_and_old_tracks_first
    (snap : AppState) (env : StartEnv) (w : World) :
  let w' := exec (handleStartMeeting snap env) w in
  all_stopped w' (activeTracksRef w)
  ∧ ended w ⊆ ended w'
  ∧ ∃ rest, trace w' = trace w ++ ESetErrorMsg None
                         :: (EStop ∘ track_id <$> activeTracksRef w) ++ rest.
Proof.
  cbv zeta. unfold exec. rewrite handleStartMeeting_after_prelude.
  destruct (start_try_grows snap env (start_prelude w)) as (He & rest & Ht).
  split; [|split].
  - intros t Ht'. apply He. cbn. apply elem_of_union; left.
    apply elem_of_list_to_set. apply list_elem_of_fmap. by exists t.
  - intros x Hx. apply He. cbn. by apply elem_of_union; right.
  - exists rest. rewrite Ht. unfold start_prelude.
    rewrite trace_with_activeTracks, trace_stopped_by, trace_setErrorMsg.
    by rewrite <- !app_assoc.
Qed.




(** *** The message shown for a failed start *)

Lemma prefix_spec (a b : string) :
  String.prefix a b = true ↔ ∃ post, b = a +:+ post.
Proof.
  revert b; induction a as [|c a IH]; intros b.
  - split; [intros _; by exists b | by destruct b].
  - destruct b as [|d b]; simpl.
    + split; [done | by intros (post & ?)].
    + destruct (Ascii.ascii_dec c d) as [->|Hne].
      * rewrite IH. split; intros (post & Hp); exists post; [by rewrite Hp|].
        by injection Hp.
      * split; [done|]. intros (post & Hp). by injection Hp as -> _.
Qed.

(** [includes] is the substring test. *)
Lemma includes_spec (needle hay : string) :
  includes needle hay = true ↔ ∃ pre post, hay = pre +:+ needle +:+ post.
Proof.
  induction hay as [|c hay IH].
  - cbn [includes]. rewrite orb_false_r, prefix_spec. split.
    + intros (post & Hp). by exists "", post.
    + intros ([|d pre] & post & Hp); [by exists post | done].
  - cbn [includes]. rewrite orb_true_iff, prefix_spec, IH. split.
    + intros [(post & Hp)|(pre & post & Hp)].
      * by exists "", post.
      * exists (String c pre), post. by rewrite Hp.
    + intros ([|d pre] & post & Hp).
      * left. by exists post.
      * right. injection Hp as -> Hp. by exists pre, post.
Qed.

(** X14.  The message for a failed start is chosen in this order.  A thrown
    value named NotAllowedError always gives the permission text, whatever
    its message says.  Otherwise a message that contains "display-capture"
    somewhere gives the policy text.  Otherwise the thrown value's own
    message is shown, or the generic text when that message is empty. *)
Theorem start_error_message_classes (err : Exn) :
  (name err = "NotAllowedError" →
   startErrorMessage err
   = "Permission denied. Please allow microphone access and select a tab to share.")
  ∧ (name err ≠ "NotAllowedError" →
     (∃ pre post, message err = pre +:+ "display-capture" +:+ post) →
     startErrorMessage err
     = "Screen capture permission policy violation. Please refresh or try a different browser context.")
  ∧ (name err ≠ "NotAllowedError" →
     (∀ pre post, message err ≠ pre +:+ "display-capture" +:+ post) →
     startErrorMessage err
     = if decide (message err = "")
       then "Failed to access audio. Ensure you select a tab with audio sharing enabled."
       else message err).
Proof.
  unfold startErrorMessage. split; [|split].
  - intros Hn. by rewrite (decide_True (P := name err = _)).
  - intros Hn Hsub. rewrite (decide_False (P := name err = _)) by done.
    apply includes_spec in Hsub. rewrite Hsub.
    rewrite bool_decide_eq_false_2; [done|].
    intros Hm. rewrite Hm in Hsub. discriminate.
  - intros Hn Hsub. rewrite (decide_False (P := name err = _)) by done.
    assert (Hinc : includes "display-capture" (message err) = false).
    { apply not_true_is_false. intros Hinc. apply includes_spec in Hinc.
      destruct Hinc as (pre & post & Hp). by apply (Hsub pre post). }
    rewrite Hinc, andb_false_r. reflexivity.
Qed.

Lemma start_error_message_witness :
  startErrorMessage {| name := "NotAllowedError";
                       message := "blocked by display-capture policy" |}
  = "Permission denied. Please allow microphone access and select a tab to share."
  ∧ startErrorMessage {| name := "SecurityError";
                         message := "blocked by display-capture policy" |}
    = "Screen capture permission policy violation. Please refresh or try a different browser context.".
Proof.
  split.
  - by apply (start_error_message_classes
                {| name := "NotAllowedError";
                   message := "blocked by display-capture policy" |}).
  - apply (start_error_message_classes
             {| name := "SecurityError";
                message := "blocked by display-capture policy" |}); [done|].
    by exists "blocked by ", " policy".
Defined.

(** ** The connection state machine *)

Lemma onclose_state w : connectionState (app (exec onclose w)) = DISCONNECTED.
Proof.
  unfold exec, onclose, stopAudioStream; unfold_setters.
  destruct w as [a [p c m s] ? ? ? ? ?]; by destruct c, m, s.
Qed.

Lemma onerror_state w : connectionState (app (exec onerror w)) = ERROR.
Proof.
  unfold exec, onerror, stopAudioStream; unfold_setters.
  destruct w as [a [p c m s] ? ? ? ? ?]; by destruct c, m, s.
Qed.

Lemma start_state snap env w :
  connectionState (app (exec (handleStartMeeting snap env) w)) = CONNECTING
  ∨ connectionState (app (exec (handleStartMeeting snap env) w)) = ERROR.
Proof.
  destruct (start_cases env) as [(e & Hf)|(mic & disp & dest & Hs)].
  - destruct (failed_start_state snap env e w Hf) as (_ & Hst & _). by right.
  - destruct (started_state snap env mic disp dest w Hs) as (_ & _ & Hst).
    rewrite Hst. destruct (liveConnect env); [by right | by left].
Qed.

Lemma handle_preserves_state ev :
  match ev with ClickGenerate | ClickDismiss | SessionMessage _ _ _ => True
           | _ => False end →
  preserves (λ w, connectionState (app w)) (handle ev).
Proof. destruct ev; try done; intros _; unfold handle; by frame. Qed.

(** X15.  The state becomes Connected only through the session's [onopen]:
    no other event moves the application into Connected from another state.
    And [onopen] always does, whatever the state was, also after a stop. *)
Theorem connected_only_through_onopen (ev : Event) (w : World) :
  (∀ st0 mixed,
     connectionState (app (step (SessionOpen st0 mixed) w)) = CONNECTED)
  ∧ (connectionState (app (step ev w)) = CONNECTED →
     connectionState (app w) = CONNECTED
     ∨ ∃ st0 mixed, ev = SessionOpen st0 mixed).
Proof.
  split; [reflexivity|]. intros Hc.
  destruct ev as [env| | | |t|st0 mixed|m c1 c2| |].
  - unfold step, exec, handle in Hc. rewrite bind_run, gets_run in Hc.
    cbv beta iota in Hc.
    destruct (start_state (app w) env w) as [H|H]; unfold exec in H; congruence.
  - rewrite step_ClickStop in Hc.
    destruct (handleStopMeeting_released (app w) w) as (H & _). congruence.
  - left. rewrite <- Hc. symmetry. by apply (handle_preserves_state ClickGenerate).
  - left. exact Hc.
  - unfold step, exec, handle in Hc. rewrite bind_run, modify_run in Hc.
    cbv beta iota in Hc. rewrite bind_run, gets_run in Hc. cbv beta iota in Hc.
    destruct (onended _ !! t) as [snap|].
    + match type of Hc with
      | connectionState (app (handleStopMeeting ?s ?W).2) = _ =>
          destruct (handleStopMeeting_released s W) as (H & _)
      end.
      unfold exec in H. congruence.
    + left. exact Hc.
  - right. by exists st0, mixed.
  - left. rewrite <- Hc. symmetry.
    by apply (handle_preserves_state (SessionMessage m c1 c2)).
  - change (step SessionClose w) with (exec onclose w) in Hc.
    rewrite onclose_state in Hc. discriminate.
  - change (step SessionError w) with (exec onerror w) in Hc.
    rewrite onerror_state in Hc. discriminate.
Qed.

Lemma connected_only_through_onopen_witness :
  let w := run [ClickStart envOk; ClickStop] initialWorld in
  connectionState (app w) = DISCONNECTED
  ∧ connectionState (app (step (SessionOpen running mixedStream1) w)) = CONNECTED.
Proof.
  intros w. split; [by vm_compute|].
  apply (connected_only_through_onopen ClickDismiss w).
Defined.

(** ** What the panels show *)

Lemma generate_when_connected w :
  connectionState (app w) = CONNECTED →
  isGenerating (app (step ClickGenerate w)) = true
  ∧ currentSuggestion (app (step ClickGenerate w)) = None.
Proof.
  intros Hc. unfold step, exec, handle. rewrite bind_run, gets_run.
  cbv beta iota. unfold handleGenerateResponse.
  rewrite decide_False by (intros Hne; by apply Hne).
  unfold requestSuggestion; unfold_setters. mrun.
  by destruct (sessionPromise _).
Qed.

(** X16.  The suggestion card follows the slot and the generating
    indicator.  Right after an output-side item arrives the card shows that
    item's text and its Copy button copies the same text.  While the
    indicator is on the card shows the spinner, whatever the slot holds.  A
    click on an enabled Suggest button switches the card to the spinner.  A
    dismissal while not generating hides the card. *)
Theorem suggestion_card_follows_slot (w : World) :
  (∀ evs item, isUser item = false →
     suggestionCardOf (app (deliver (evs ++ [Arrived item]) w))
     = CardSuggestion (Some (text item)) (text item))
  ∧ (isGenerating (app w) = true → suggestionCardOf (app w) = CardLoading)
  ∧ (suggestDisabled (app w) = false →
     suggestionCardOf (app (step ClickGenerate w)) = CardLoading)
  ∧ (isGenerating (app w) = false →
     suggestionCardOf (app (step ClickDismiss w)) = CardHidden).
Proof.
  unfold suggestionCardOf, SuggestionCard. split; [|split; [|split]].
  - intros evs item Hout. rewrite deliver_snoc. cbn [sink].
    rewrite onTranscriptionUpdate_generating, onTranscriptionUpdate_suggestion, Hout.
    cbn. case_decide as Hempty; [by rewrite Hempty | done].
  - intros ->. by rewrite andb_false_r.
  - unfold suggestDisabled. intros Hen.
    apply orb_false_iff in Hen as [Hc _].
    apply bool_decide_eq_false in Hc. apply dec_stable in Hc.
    destruct (generate_when_connected w Hc) as (-> & ->). reflexivity.
  - intros Hg. cbn. by rewrite Hg.
Qed.

Lemma suggestion_card_witness :
  let w := run [ClickStart envOk; SessionOpen running mixedStream1] initialWorld in
  suggestDisabled (app w) = false
  ∧ suggestionCardOf (app (step ClickGenerate w)) = CardLoading
  ∧ suggestionCardOf (app (step ClickDismiss w)) = CardHidden.
Proof.
  intros w.
  assert (Hen : suggestDisabled (app w) = false) by (by vm_compute).
  assert (Hg : isGenerating (app w) = false) by (by vm_compute).
  destruct (suggestion_card_follows_slot w) as (_ & _ & Hclick & Hdis).
  split; [exact Hen|]. split; [exact (Hclick Hen) | exact (Hdis Hg)].
Defined.

Lemma run_transcripts evs w :
  transcripts (app (run evs w)) = transcripts (app w) ++ dispatched evs.
Proof.
  revert w; induction evs as [|ev evs IH]; intros w.
  - by rewrite app_nil_r.
  - cbn [run foldl]. fold (run evs (step ev w)).
    rewrite IH, step_transcripts, (dispatched_cons ev evs).
    by rewrite <- app_assoc.
Qed.

(** X17.  The transcript panel renders the log as it stands after any
    sequence of events: the placeholder exactly when the log was empty and
    no item with text was dispatched, and otherwise one bubble per logged
    item, in log order, with the item's text, its id as key, and the side
    and label given by the item's [isUser] flag. *)
Theorem transcript_panel_follows_log (evs : list Event) (w : World) :
  let items := transcripts (app w) ++ dispatched evs in
  let view := Transcript (transcripts (app (run evs w))) in
  (view = Placeholder ↔ transcripts (app w) = [] ∧ dispatched evs = [])
  ∧ (∀ bs, view = Bubbles bs →
       bubble_text <$> bs = text <$> items
       ∧ bubble_key <$> bs = item_id <$> items
       ∧ bubble_start <$> bs = isUser <$> items
       ∧ bubble_label <$> bs
         = (λ it, if isUser it then "Meeting Audio" else "AI Assistant") <$> items).
Proof.
  cbv zeta. rewrite run_transcripts. unfold Transcript.
  set (items := transcripts (app w) ++ dispatched evs).
  case_decide as Hlen.
  - apply nil_length_inv in Hlen. split; [|done].
    split; [intros _; by apply app_eq_nil | done].
  - split.
    + split; [done|]. intros (Ha & Hb). subst items.
      rewrite Ha, Hb in Hlen. by destruct Hlen.
    + intros bs [= <-]. rewrite <- !list_fmap_compose. by repeat split.
Qed.

Lemma transcript_panel_witness :
  ∃ bs, Transcript (transcripts (app (run
          [SessionMessage (inputEvent "hello") (clk 1) (clk 1)] initialWorld)))
        = Bubbles bs
        ∧ bubble_text <$> bs = ["hello"]
        ∧ bubble_label <$> bs = ["Meeting Audio"].
Proof.
  destruct (transcript_panel_follows_log
              [SessionMessage (inputEvent "hello") (clk 1) (clk 1)] initialWorld)
    as (_ & Hb).
  eexists. split; [reflexivity|].
  destruct (Hb _ eq_refl) as (Ht & _ & _ & Hl). split; [exact Ht | exact Hl].
Defined.

(** ** Teardown in general *)

(** X20.  When a watched video track ends remotely, the handler installed on
    it runs with the React state of the render that installed it.  It leaves
    the state Disconnected with nothing held, and the tracks ended
    afterwards are exactly: the track that ended, the tracks on the active
    list, the tracks of the stream of that installing render (none when its
    stream was null), and those ended before.  The stream that is current
    when the track ends plays no part. *)
Theorem remote_end_teardown (t : nat) (snap : AppState) (w : World) :
  onended w !! t = Some snap →
  let w' := step (VideoEnded t) w in
  released w'
  ∧ all_stopped w' (activeTracksRef w)
  ∧ ended w' = list_to_set (track_id <$> activeTracksRef w)
               ∪ (list_to_set (track_id <$> default [] (stream snap))
                  ∪ ({[t]} ∪ ended w)).
Proof.
  intros Hh. cbv zeta. unfold step, exec, handle.
  rewrite bind_run, modify_run. cbv beta iota.
  rewrite bind_run, gets_run. cbv beta iota.
  cbn [onended with_ended]. rewrite Hh.
  set (w0 := with_ended (λ s, {[t]} ∪ s) w).
  change ((handleStopMeeting snap w0).2) with (exec (handleStopMeeting snap) w0).
  split; [apply handleStopMeeting_released|].
  assert (Hend : ended (exec (handleStopMeeting snap) w0)
                 = list_to_set (track_id <$> activeTracksRef w)
                   ∪ (list_to_set (track_id <$> default [] (stream snap))
                      ∪ ({[t]} ∪ ended w))).
  { unfold exec. rewrite handleStopMeeting_run. cbn [snd]. cbn.
    destruct (disconnect_frame w0) as (_&_&_&_&_&_&->&_). reflexivity. }
  split; [|exact Hend].
  intros x Hx. rewrite Hend. apply elem_of_union; left.
  apply elem_of_list_to_set. apply list_elem_of_fmap. by exists x.
Qed.

Lemma remote_end_teardown_witness :
  let w := exec (onopen running mixedStream1)
            (exec (handleStartMeeting initialApp envOk) initialWorld) in
  let w' := step (VideoEnded 2) w in
  onended w !! 2 = Some initialApp
  ∧ released w'
  ∧ all_stopped w' (activeTracksRef w).
Proof.
  intros w w'.
  assert (Hh : onended w !! 2 = Some initialApp) by (by vm_compute).
  destruct (remote_end_teardown 2 initialApp w Hh) as (Hrel & Hall & _).
  split; [exact Hh|]. split; [exact Hrel | exact Hall].
Defined.

(** X21.  Of the audio contexts that the start handler and the service
    create, a call of [handleStopMeeting] closes at most one: the service's
    input context, and only when a session promise is set.  Every other of
    those contexts, the one [handleStartMeeting] created for mixing
    included, keeps its state, and none is removed.  (The context that
    [AudioVisualizer] creates for itself is closed by its own effect
    cleanup, in the render that follows a stop; it is not among them.) *)
Theorem stop_closes_only_input_context (snap : AppState) (w : World) :
  contexts (exec (handleStopMeeting snap) w)
  = match sessionPromise (svc w), inputAudioContext (svc w) with
    | Some _, Some c => <[c := closed]> (contexts w)
    | _, _ => contexts w
    end
  ∧ length (contexts (exec (handleStopMeeting snap) w)) = length (contexts w)
  ∧ ∀ i, inputAudioContext (svc w) ≠ Some i →
         contexts (exec (handleStopMeeting snap) w) !! i = contexts w !! i.
Proof.
  assert (Hc : contexts (exec (handleStopMeeting snap) w)
               = contexts (exec disconnect w)).
  { unfold exec. by rewrite handleStopMeeting_run. }
  rewrite Hc, disconnect_contexts.
  split; [reflexivity|]. split.
  - destruct (sessionPromise (svc w)), (inputAudioContext (svc w)); try done.
    apply length_insert.
  - intros i Hi.
    destruct (sessionPromise (svc w)), (inputAudioContext (svc w)) as [c|];
      try done.
    apply list_lookup_insert_ne. congruence.
Qed.

Lemma stop_closes_only_input_context_witness :
  let w := exec (onopen running mixedStream1)
            (exec (handleStartMeeting initialApp envOk) initialWorld) in
  let w' := exec (handleStopMeeting (app w)) w in
  inputAudioContext (svc w) = Some 1
  ∧ contexts w !! 0 = Some running
  ∧ contexts w' !! 0 = Some running
  ∧ length (contexts w') = length (contexts w).
Proof.
  intros w w'.
  assert (Hin : inputAudioContext (svc w) = Some 1) by (by vm_compute).
  assert (H0 : contexts w !! 0 = Some running) by (by vm_compute).
  destruct (stop_closes_only_input_context (app w) w) as (_ & Hlen & Hkeep).
  split; [exact Hin|]. split; [exact H0|]. split; [|exact Hlen].
  unfold w'. rewrite (Hkeep 0); [exact H0|]. rewrite Hin. discriminate.
Defined.

(** ** AudioVisualizer *)

Lemma draw_bars_length height barWidth x dataArray :
  length (draw_bars height barWidth x dataArray) = length dataArray.
Proof.
  revert x; induction dataArray as [|v rest IH]; intros x; [done|].
  cbn. by rewrite IH.
Qed.

Lemma draw_bars_lookup height barWidth x dataArray i v :
  dataArray !! i = Some v →
  ∃ r, draw_bars height barWidth x dataArray !! i = Some r
       ∧ fill r = Gradient
       ∧ (rect_x r == x + inject_Z (Z.of_nat i) * (barWidth + 1))%Q
       ∧ rect_w r = barWidth
       ∧ rect_h r = (inject_Z v / 2)%Q
       ∧ rect_y r = (height - inject_Z v / 2)%Q.
Proof.
  revert x i; induction dataArray as [|v0 rest IH]; intros x i Hv; [done|].
  destruct i as [|i].
  - injection Hv as ->. eexists. split; [reflexivity|]. cbn.
    repeat split. ring.
  - destruct (IH (x + barWidth + 1)%Q i Hv) as (r & Hr & Hf & Hx & Hw & Hh & Hy).
    exists r. split; [exact Hr|]. repeat split; try done.
    rewrite Hx, Nat2Z.inj_succ. unfold Z.succ. rewrite inject_Z_plus. ring.
Qed.

(** X18.  One frame of the visualizer paints the whole canvas with the
    background and then one gradient bar per frequency bin, in bin order.
    Bar [i] starts at [i] times (bar width + 1), so neighbouring bars are
    one pixel apart; every bar has the same width, canvas width / number of
    bins * 2.5; its height is half the bin's byte value; and it stands on
    the bottom edge of the canvas. *)
Theorem draw_bar_geometry (width height : Q) (dataArray : list Z) :
  let barWidth := (width / inject_Z (Z.of_nat (length dataArray)) * (5 # 2))%Q in
  length (draw width height dataArray) = S (length dataArray)
  ∧ draw width height dataArray !! 0
    = Some {| fill := Background; rect_x := 0; rect_y := 0;
              rect_w := width; rect_h := height |}
  ∧ ∀ i v, dataArray !! i = Some v →
      ∃ r, draw width height dataArray !! S i = Some r
           ∧ fill r = Gradient
           ∧ (rect_x r == inject_Z (Z.of_nat i) * (barWidth + 1))%Q
           ∧ rect_w r = barWidth
           ∧ rect_h r = (inject_Z v / 2)%Q
           ∧ (rect_y r + rect_h r == height)%Q.
Proof.
  cbv zeta. unfold draw. split; [cbn; by rewrite draw_bars_length|].
  split; [reflexivity|]. intros i v Hv.
  destruct (draw_bars_lookup height
              (width / inject_Z (Z.of_nat (length dataArray)) * (5 # 2))%Q
              0%Q dataArray i v Hv) as (r & Hr & Hf & Hx & Hw & Hh & Hy).
  exists r. split; [exact Hr|]. repeat split; try done.
  - rewrite Hx. ring.
  - rewrite Hy, Hh. ring.
Qed.

Lemma draw_bar_geometry_witness :
  ∃ r, draw canvasWidth canvasHeight [0; 255]%Z !! 2 = Some r
       ∧ (rect_x r == 376)%Q ∧ (rect_w r == 375)%Q
       ∧ (rect_y r + rect_h r == 64)%Q.
Proof.
  destruct (draw_bar_geometry canvasWidth canvasHeight [0; 255]%Z)
    as (_ & _ & Hbar).
  destruct (Hbar 1 255%Z eq_refl) as (r & Hr & _ & Hx & Hw & _ & Hy).
  exists r. split; [exact Hr|]. split; [|split].
  - rewrite Hx. reflexivity.
  - rewrite Hw. reflexivity.
  - exact Hy.
Defined.

Lemma canvas_bar_width :
  (canvasWidth / inject_Z (Z.of_nat 128) * (5 # 2) == 375 # 64)%Q.
Proof. reflexivity. Qed.

(** X19.  On the component's 300 by 64 canvas with the analyser's 128 bins,
    the bars do not fit.  Bar [i] starts at or beyond the right edge of the
    canvas exactly when [i] is 44 or more, so the upper 84 bins are never
    visible; and a bar reaches above the top edge exactly when its bin's
    byte value is more than 128. *)
Theorem draw_overflows_canvas (dataArray : list Z) (i : nat) (r : FillRect) :
  length dataArray = 128 →
  draw canvasWidth canvasHeight dataArray !! S i = Some r →
  ((canvasWidth <= rect_x r)%Q ↔ (44 ≤ i)%nat)
  ∧ ∀ v, dataArray !! i = Some v → ((rect_y r < 0)%Q ↔ (128 < v)%Z).
Proof.
  intros Hlen Hr.
  assert (Hi : (i < length dataArray)%nat).
  { apply lookup_lt_Some in Hr. unfold draw in Hr. cbn in Hr.
    rewrite draw_bars_length in Hr. lia. }
  destruct (lookup_lt_is_Some_2 dataArray i Hi) as (v & Hv).
  destruct (draw_bar_geometry canvasWidth canvasHeight dataArray)
    as (_ & _ & Hbar).
  destruct (Hbar i v Hv) as (r' & Hr' & _ & Hx & _ & Hh & Hy).
  rewrite Hr in Hr'. injection Hr' as <-.
  rewrite Hlen, canvas_bar_width in Hx.
  split.
  - rewrite Hx. unfold canvasWidth. split.
    + intros Hle. destruct (decide (44 ≤ i)%nat) as [|Hlt]; [done|].
      assert (Hq : (inject_Z (Z.of_nat i) <= 43)%Q).
      { unfold Qle. cbn. lia. }
      exfalso. lra.
    + intros Hge.
      assert (Hq : (44 <= inject_Z (Z.of_nat i))%Q).
      { unfold Qle. cbn. lia. }
      lra.
  - intros v' Hv'. rewrite Hv in Hv'. injection Hv' as <-.
    rewrite Hh in Hy. unfold canvasHeight, Qdiv in Hy.
    change (/ 2)%Q with (1 # 2)%Q in Hy. split.
    + intros Hneg. destruct (decide (128 < v)%Z) as [|Hle]; [done|].
      assert (Hq : (inject_Z v <= 128)%Q).
      { unfold Qle. cbn. lia. }
      exfalso. lra.
    + intros Hgt.
      assert (Hq : (129 <= inject_Z v)%Q).
      { unfold Qle. cbn. lia. }
      lra.
Qed.

Lemma draw_overflows_canvas_witness :
  ∃ r, draw canvasWidth canvasHeight (replicate 128 200%Z) !! 45 = Some r
       ∧ (canvasWidth <= rect_x r)%Q ∧ (rect_y r < 0)%Q.
Proof.
  assert (Hr : is_Some (draw canvasWidth canvasHeight (replicate 128 200%Z) !! 45)).
  { apply lookup_lt_is_Some. cbn. lia. }
  destruct Hr as (r & Hr). exists r. split; [exact Hr|].
  destruct (draw_overflows_canvas (replicate 128 200%Z) 44 r) as (Hx & Hy);
    [by rewrite length_replicate | exact Hr |].
  split; [apply Hx; lia|].
  apply (Hy 200%Z); [apply lookup_replicate_2; lia | lia].
Defined.

(** X22.  What the status card offers after a start attempt and after a
    stop.  After any start attempt the card shows either the End Meeting
    button with "Connecting..." and the pulsing yellow dot, or (the attempt
    ended in Error) the Start Meeting button with "Ready to Start" and the
    grey dot, exactly as when Disconnected; after any stop it shows the
    Start Meeting button with "Ready to Start".  In all these cases the
    Suggest button is disabled. *)
Theorem controls_after_start_and_stop
    (snap : AppState) (env : StartEnv) (w : World) :
  (let a := app (exec (handleStartMeeting snap env) w) in
   suggestDisabled a = true
   ∧ ((meetingButton (connectionState a) = EndMeetingButton
       ∧ statusText (connectionState a) = "Connecting..."
       ∧ statusDot (connectionState a) = DotYellowPulse)
      ∨ (connectionState a = ERROR
         ∧ meetingButton (connectionState a) = StartMeetingButton
         ∧ statusText (connectionState a) = "Ready to Start"
         ∧ statusDot (connectionState a) = DotGrey)))
  ∧ (let a := app (exec (handleStopMeeting snap) w) in
     suggestDisabled a = true
     ∧ meetingButton (connectionState a) = StartMeetingButton
     ∧ statusText (connectionState a) = "Ready to Start"
     ∧ statusDot (connectionState a) = DotGrey).
Proof.
  split; cbv zeta; unfold suggestDisabled.
  - destruct (start_state snap env w) as [-> | ->].
    + split; [reflexivity|]. left. by repeat split.
    + split; [reflexivity|]. right. by repeat split.
  - destruct (handleStopMeeting_released snap w) as (-> & _). by repeat split.
Qed.
